(** * Day 23 (longest hike): grid reduction and longest simple path

    A shallow embedding of [src/day23/day23.py].  Python values are modelled
    as follows.

    - [int] is [Z]; a cell [(row, col)] is a pair [Z * Z].
    - the grid, a [List[str]], is a [list string]; indexing follows Python:
      an index [i] with [0 <= i < n] selects from the left, [-n <= i < 0]
      selects from the right, anything else raises [IndexError].
    - a [dict] is an association list in insertion order; assigning to an
      existing key overwrites the value in place.
    - a [set] of cells is a duplicate-free list.
    - an exception is the [Raise] branch of [result]; the loops of the source
      are folds in that error monad, so the first exception wins.

    The limits of an actual interpreter (recursion depth, memory) are not
    modelled. *)

From Stdlib Require Import ZArith List String Ascii Bool Lia.
Import ListNotations.
Open Scope Z_scope.

(** ** Exceptions and the error monad *)

(** [OutOfFuel] is not a Python exception: the [while] loop of
    [build_graph] and the recursion of [dfs] are modelled with a step
    budget, and [OutOfFuel] signals that the budget was too small.  The
    budgets chosen below are shown to suffice on every input
    ([build_graph_fuel], [get_max_steps_fuel]). *)
Inductive exn : Type :=
| IndexError
| KeyError
| OverflowError
| OutOfFuel.

Inductive result (A : Type) : Type :=
| Ok (a : A)
| Raise (e : exn).
Arguments Ok {A} a.
Arguments Raise {A} e.

Definition bind {A B : Type} (m : result A) (k : A -> result B) : result B :=
  match m with
  | Ok a => k a
  | Raise e => Raise e
  end.

Notation "x <- m ;; k" := (bind m (fun x => k))
  (at level 61, m at next level, right associativity).
Notation "' pat <- m ;; k" := (bind m (fun x => match x with pat => k end))
  (at level 61, pat pattern, m at next level, right associativity).

(** [for x in xs: st = body(x, st)] with exceptions. *)
Fixpoint for_each {A S : Type} (xs : list A) (body : A -> S -> result S)
    (st : S) : result S :=
  match xs with
  | [] => Ok st
  | x :: rest => st' <- body x st ;; for_each rest body st'
  end.

(** ** Python containers *)

Definition cell : Type := (Z * Z)%type.

Definition cell_eqb (a b : cell) : bool :=
  (fst a =? fst b) && (snd a =? snd b).

Definition len {A : Type} (l : list A) : Z := Z.of_nat (List.length l).

(** [l[i]] *)
Definition py_getitem {A : Type} (l : list A) (i : Z) : result A :=
  let j := if i <? 0 then i + len l else i in
  if (0 <=? j) && (j <? len l)
  then match nth_error l (Z.to_nat j) with
       | Some a => Ok a
       | None => Raise IndexError
       end
  else Raise IndexError.

(** [range(n)] *)
Definition range (n : Z) : list Z :=
  map Z.of_nat (seq 0 (Z.to_nat n)).

(** [enumerate(l)] *)
Definition enumerate {A : Type} (l : list A) : list (Z * A) :=
  combine (range (len l)) l.

(** [c in s] for a list or a set of cells. *)
Definition cell_in (c : cell) (s : list cell) : bool :=
  existsb (cell_eqb c) s.

(** [s.add(c)] *)
Definition set_add (c : cell) (s : list cell) : list cell :=
  if cell_in c s then s else c :: s.

(** [s.remove(c)], which raises [KeyError] when [c] is absent. *)
Definition set_remove (c : cell) (s : list cell) : result (list cell) :=
  if cell_in c s
  then Ok (filter (fun d => negb (cell_eqb c d)) s)
  else Raise KeyError.

Definition dict (V : Type) : Type := list (cell * V).

(** [d[k]] *)
Fixpoint dict_get {V : Type} (d : dict V) (k : cell) : result V :=
  match d with
  | [] => Raise KeyError
  | (k', v) :: rest => if cell_eqb k k' then Ok v else dict_get rest k
  end.

(** [d[k] = v] *)
Fixpoint dict_set {V : Type} (d : dict V) (k : cell) (v : V) : dict V :=
  match d with
  | [] => [(k, v)]
  | (k', v') :: rest =>
      if cell_eqb k k' then (k', v) :: rest else (k', v') :: dict_set rest k v
  end.

(** iteration over a dict yields its keys *)
Definition keys {V : Type} (d : dict V) : list cell := map fst d.

(** ** The grid *)

Definition Grid : Type := list string.

Definition row_chars (row : string) : list ascii := list_ascii_of_string row.

(** [grid[x][y]] *)
Definition grid_at (grid : Grid) (c : cell) : result ascii :=
  row <- py_getitem grid (fst c) ;;
  py_getitem (row_chars row) (snd c).

(** [len(grid[0])] where the grid is known to be non-empty; the only use
    in the source sits behind [0 <= cell[0] < len(grid)]. *)
Definition width (grid : Grid) : Z :=
  match grid with
  | [] => 0
  | row :: _ => len (row_chars row)
  end.

Definition is_valid_loc (grid : Grid) (c : cell) : bool :=
  ((0 <=? fst c) && (fst c <? len grid)) &&
  ((0 <=? snd c) && (snd c <? width grid)).

Definition is_char (a b : ascii) : bool := Ascii.eqb a b.

(** first index holding ['.'], or the initial [0] when the loop never
    breaks *)
Definition first_open (row : list ascii) : Z :=
  match find (fun p => is_char (snd p) ".") (enumerate row) with
  | Some (idx, _) => idx
  | None => 0
  end.

Definition get_start_finish (grid : Grid) : result (cell * cell) :=
  first <- py_getitem grid 0 ;;
  let start_y := first_open (row_chars first) in
  last <- py_getitem grid (-1) ;;
  let finish_y := first_open (row_chars last) in
  Ok ((0, start_y), (len grid - 1, finish_y)).

Definition shift (c : cell) (d : Z * Z) : cell :=
  (fst c + fst d, snd c + snd d).

(** the loop shared by both step functions and by the neighbour count:
    collect, in the order of [dirs], the in-bounds neighbours that are
    not ['#'] *)
Definition open_neighbors (grid : Grid) (c : cell) (dirs : list (Z * Z))
  : result (list cell) :=
  for_each dirs
    (fun d res =>
       let n := shift c d in
       if is_valid_loc grid n
       then ch <- grid_at grid n ;;
            Ok (if negb (is_char ch "#") then res ++ [n] else res)
       else Ok res)
    [].

Definition step_dirs : list (Z * Z) := [(0, 1); (0, -1); (1, 0); (-1, 0)].

Definition get_nxt_cells_p2 (grid : Grid) (c : cell) : result (list cell) :=
  open_neighbors grid c step_dirs.

Definition get_nxt_cells_p1 (grid : Grid) (c : cell) : result (list cell) :=
  ch <- grid_at grid c ;;
  if is_char ch ">" && is_valid_loc grid (fst c, snd c + 1)
  then Ok [(fst c, snd c + 1)]
  else if is_char ch "<" && is_valid_loc grid (fst c, snd c - 1)
  then Ok [(fst c, snd c - 1)]
  else if is_char ch "^" && is_valid_loc grid (fst c - 1, snd c)
  then Ok [(fst c - 1, snd c)]
  else if is_char ch "v" && is_valid_loc grid (fst c + 1, snd c)
  then Ok [(fst c + 1, snd c)]
  else open_neighbors grid c step_dirs.

Definition count_dirs : list (Z * Z) := [(1, 0); (-1, 0); (0, 1); (0, -1)].

(** the innermost loop of [get_option_points]: [neighbors += 1] for each
    in-bounds neighbour that is not ['#'] *)
Definition count_neighbors (grid : Grid) (c : cell) : result Z :=
  for_each count_dirs
    (fun d neighbors =>
       let n := shift c d in
       if is_valid_loc grid n
       then ch <- grid_at grid n ;;
            Ok (if negb (is_char ch "#") then neighbors + 1 else neighbors)
       else Ok neighbors)
    0.

(** the body of the two outer loops of [get_option_points] *)
Definition option_point_step (grid : Grid) (c : cell) (points : list cell)
  : result (list cell) :=
  ch <- grid_at grid c ;;
  if is_char ch "#" then Ok points
  else
    neighbors <- count_neighbors grid c ;;
    Ok (if 3 <=? neighbors then points ++ [c] else points).

Definition get_option_points (grid : Grid) (start finish : cell)
  : result (list cell) :=
  for_each (range (len grid))
    (fun x points =>
       for_each (range (width grid))
         (fun y points => option_point_step grid (x, y) points)
         points)
    [start; finish].

(** ** Graph construction *)

Definition Graph : Type := dict (dict Z).

Definition nxt_cells (grid : Grid) (p : Z) (c : cell) : result (list cell) :=
  if p =? 1 then get_nxt_cells_p1 grid c else get_nxt_cells_p2 grid c.

(** The stack of the walk is a list whose head is the top: [stack.append]
    is a cons and [stack.pop()] takes the head. *)
Definition Stack : Type := list (Z * cell).

(** [for xx, yy in ...: if (xx, yy) not in seen: stack.append(...);
    seen.add(...)] *)
Definition push_unseen (steps : Z) (cells : list cell)
    (st : Stack * list cell) : Stack * list cell :=
  fold_left
    (fun st n =>
       let '(stack, seen) := st in
       if cell_in n seen then (stack, seen)
       else ((steps + 1, n) :: stack, set_add n seen))
    cells st.

(** [graph[src][n] = steps] *)
Definition add_edge (graph : Graph) (src n : cell) (steps : Z)
  : result Graph :=
  adj <- dict_get graph src ;;
  Ok (dict_set graph src (dict_set adj n steps)).

(** the [while stack:] loop for one source point *)
Fixpoint walk (fuel : nat) (grid : Grid) (points : list cell) (p : Z)
    (src : cell) (stack : Stack) (seen : list cell) (graph : Graph)
  : result Graph :=
  match stack with
  | [] => Ok graph
  | (steps, n) :: stack' =>
      match fuel with
      | O => Raise OutOfFuel
      | S fuel' =>
          if negb (steps =? 0) && cell_in n points
          then graph' <- add_edge graph src n steps ;;
               walk fuel' grid points p src stack' seen graph'
          else cells <- nxt_cells grid p n ;;
               let '(stack'', seen') := push_unseen steps cells (stack', seen) in
               walk fuel' grid points p src stack'' seen' graph
      end
  end.

(** one more than the number of in-bounds cells *)
Definition walk_fuel (grid : Grid) : nat :=
  S (Z.to_nat (len grid * width grid)).

(** [{p: {} for p in points}] *)
Definition empty_graph (points : list cell) : Graph :=
  fold_left (fun g pt => dict_set g pt []) points [].

Definition build_graph (grid : Grid) (points : list cell) (p : Z)
  : result Graph :=
  for_each points
    (fun src graph =>
       walk (walk_fuel grid) grid points p src [(0, src)] [src] graph)
    (empty_graph points).

(** ** Longest path search *)

(** the values taken by [max_steps]: [-float("inf")] or an [int] *)
Inductive steps : Type :=
| NegInf
| Fin (n : Z).

Definition steps_lt (a b : steps) : bool :=
  match a, b with
  | NegInf, Fin _ => true
  | Fin x, Fin y => x <? y
  | _, NegInf => false
  end.

(** [max(a, b)] returns [a] unless [b] is strictly greater *)
Definition py_max (a b : steps) : steps :=
  if steps_lt a b then b else a.

(** an [int] converts to a [float] unless it rounds to [2**1024] or
    beyond *)
Definition float_ok (w : Z) : bool :=
  Z.abs w <? 2 ^ 1024 - 2 ^ 970.

(** [r + w] for an [int] [w]: exact on integers; adding to [-inf]
    converts [w] to a float first, which raises [OverflowError] when [w]
    is out of range *)
Definition steps_add (r : steps) (w : Z) : result steps :=
  match r with
  | Fin n => Ok (Fin (n + w))
  | NegInf => if float_ok w then Ok NegInf else Raise OverflowError
  end.

(** [graph[a][b]] *)
Definition weight (graph : Graph) (a b : cell) : result Z :=
  adj <- dict_get graph a ;;
  dict_get adj b.

(** one iteration of the loop of [dfs], given the recursive call *)
Definition dfs_body (rec : cell -> list cell -> result (steps * list cell))
    (graph : Graph) (curr : cell) (nxt : cell) (st : steps * list cell)
  : result (steps * list cell) :=
  let '(max_steps, visited) := st in
  if cell_in nxt visited then Ok (max_steps, visited)
  else
    '(r, visited') <- rec nxt visited ;;
    w <- weight graph curr nxt ;;
    s <- steps_add r w ;;
    Ok (py_max max_steps s, visited').

(** [dfs] threads the [visited] set, which the source mutates in place,
    through the calls: the result carries the set as the call leaves it. *)
Fixpoint dfs (fuel : nat) (graph : Graph) (curr finish : cell)
    (visited : list cell) : result (steps * list cell) :=
  match fuel with
  | O => Raise OutOfFuel
  | S fuel' =>
      if cell_eqb curr finish then Ok (Fin 0, visited)
      else
        let visited1 := set_add curr visited in
        adj <- dict_get graph curr ;;
        '(max_steps, visited2) <-
          for_each (keys adj)
            (dfs_body (fun nxt v => dfs fuel' graph nxt finish v) graph curr)
            (NegInf, visited1) ;;
        visited3 <- set_remove curr visited2 ;;
        Ok (max_steps, visited3)
  end.

(** the recursion never goes deeper than one call per key, plus one *)
Definition dfs_fuel (graph : Graph) : nat := S (List.length graph).

(** [def dfs(..., visited=set())] is executed on every call of
    [get_max_steps], so each call binds a new empty default set. *)
Definition get_max_steps (graph : Graph) (start finish : cell)
  : result steps :=
  '(r, _) <- dfs (dfs_fuel graph) graph start finish [] ;;
  Ok r.

(** [driver], from the stripped lines of the input file to the two
    numbers it prints *)
Definition driver (lines : Grid) : result (steps * steps) :=
  '(start, finish) <- get_start_finish lines ;;
  points <- get_option_points lines start finish ;;
  graph1 <- build_graph lines points 1 ;;
  graph2 <- build_graph lines points 2 ;;
  p1 <- get_max_steps graph1 start finish ;;
  p2 <- get_max_steps graph2 start finish ;;
  Ok (p1, p2).

(** ** Specification vocabulary *)

(** a cell one may stand on: inside the grid and not a wall *)
Definition passableb (grid : Grid) (c : cell) : bool :=
  is_valid_loc grid c &&
  match grid_at grid c with
  | Ok ch => negb (is_char ch "#")
  | Raise _ => false
  end.

(** the number of passable orthogonal neighbours of a cell *)
Definition degree (grid : Grid) (c : cell) : Z :=
  len (filter (passableb grid) (map (shift c) count_dirs)).

(** every row is as long as the first one *)
Definition rectangular (grid : Grid) : Prop :=
  Forall (fun row => len (row_chars row) = width grid) grid.

(** column [y] of a row holds ['.'] *)
Definition row_open (row : list ascii) (y : Z) : Prop :=
  0 <= y /\ nth_error row (Z.to_nat y) = Some "."%char.

(** what [get_start_finish] reports for a row: its first open column, or
    column 0 when the row has none *)
Definition endpoint_col (row : list ascii) (y : Z) : Prop :=
  (row_open row y /\ forall y', row_open row y' -> y <= y') \/
  ((forall y', ~ row_open row y') /\ y = 0).

(** the direction a cell forces in part 1, if any *)
Definition forced_dir (ch : ascii) : option (Z * Z) :=
  if is_char ch ">" then Some (0, 1)
  else if is_char ch "<" then Some (0, -1)
  else if is_char ch "^" then Some (-1, 0)
  else if is_char ch "v" then Some (1, 0)
  else None.

(** [n] is one step right, left, down or up from [c] *)
Definition adjacent (c n : cell) : Prop :=
  exists d, In d step_dirs /\ n = shift c d.

(** ** Paths in a graph *)

(** the sum of the weights along a sequence of nodes; [KeyError] when two
    consecutive nodes are not joined by an edge *)
Fixpoint path_weight (graph : Graph) (p : list cell) : result Z :=
  match p with
  | [] => Ok 0
  | a :: rest =>
      match rest with
      | [] => Ok 0
      | b :: _ =>
          w <- weight graph a b ;;
          m <- path_weight graph rest ;;
          Ok (w + m)
      end
  end.

(** [p] is a simple path from [s] to [f] of total weight [m] *)
Definition simple_path (graph : Graph) (s f : cell) (p : list cell) (m : Z)
  : Prop :=
  hd_error p = Some s /\ last p s = f /\ NoDup p /\
  path_weight graph p = Ok m.

(** every node an edge leads to has an adjacency entry of its own *)
Definition graph_closed (graph : Graph) : Prop :=
  forall a adj b,
    dict_get graph a = Ok adj -> In b (keys adj) -> In b (keys graph).

(** every edge weight converts to a float *)
Definition weights_ok (graph : Graph) : Prop :=
  forall a b w, weight graph a b = Ok w -> float_ok w = true.

(** no node of [p] is in [vis] *)
Definition avoiding (vis p : list cell) : Prop :=
  forall c, In c p -> ~ In c vis.

(** [r] is the best weight of a simple path from [c] to [f] that stays
    clear of [vis]: [NegInf] when there is none *)
Definition best (graph : Graph) (f : cell) (vis : list cell) (c : cell)
    (r : steps) : Prop :=
  match r with
  | NegInf => forall p m, simple_path graph c f p m -> ~ avoiding vis p
  | Fin m =>
      (exists p, simple_path graph c f p m /\ avoiding vis p) /\
      (forall p m', simple_path graph c f p m' -> avoiding vis p -> m' <= m)
  end.

(** the same, counting only the paths whose second node is in [via]; this
    is what the loop of [dfs] has established after trying the
    neighbours in [via] *)
Definition best_via (graph : Graph) (f : cell) (vis : list cell) (c : cell)
    (via : list cell) (r : steps) : Prop :=
  match r with
  | NegInf =>
      forall p m b, simple_path graph c f p m -> avoiding vis p ->
                    nth_error p 1 = Some b -> ~ In b via
  | Fin m =>
      (exists p, simple_path graph c f p m /\ avoiding vis p) /\
      (forall p m' b, simple_path graph c f p m' -> avoiding vis p ->
                      nth_error p 1 = Some b -> In b via -> m' <= m)
  end.

(** ** Invariants of the graph construction *)

(** what holds of the graph throughout [build_graph]: its keys are the
    points, and every edge leads to a point other than its source *)
Definition graph_inv (points : list cell) (g : Graph) : Prop :=
  (forall x, In x (keys g) <-> In x points) /\
  (forall a adj b, dict_get g a = Ok adj -> In b (keys adj) ->
                   In b points /\ b <> a).

(** what holds of the stack of one walk: step counts are not negative,
    and only the initial entry, with count 0, holds the source *)
Definition stack_inv (src : cell) (stack : Stack) : Prop :=
  forall s n, In (s, n) stack -> 0 <= s /\ (s <> 0 -> n <> src).

(** all the cells inside the grid *)
Definition all_cells (grid : Grid) : list cell :=
  list_prod (range (len grid)) (range (width grid)).

(** the cells inside the grid a walk has not seen yet *)
Definition unseen (grid : Grid) (seen : list cell) : list cell :=
  filter (fun c => negb (cell_in c seen)) (all_cells grid).

(** no node has an edge to itself *)
Definition no_self_loop (g : Graph) : Prop :=
  forall a w, weight g a a <> Ok w.

(** executable forms of [graph_closed] and [weights_ok] *)
Definition graph_closedb (g : Graph) : bool :=
  forallb (fun e => forallb (fun b => cell_in b (keys g)) (keys (snd e))) g.

Definition weights_okb (g : Graph) : bool :=
  forallb (fun e => forallb (fun bw => float_ok (snd bw)) (snd e)) g.

(** the test deciding whether a scanned cell is appended *)
Definition junctionb (grid : Grid) (c : cell) : bool :=
  passableb grid c && (3 <=? degree grid c).

(** a call either returns or stops on an [OverflowError] *)
Definition returns_or_overflows {A : Type} (vis : list cell)
    (m : result (A * list cell)) : Prop :=
  (exists r, m = Ok (r, vis)) \/ m = Raise OverflowError.

(** every edge weight lies between 1 and [bound] *)
Definition weights_bounded (bound : Z) (g : Graph) : Prop :=
  forall a b w, weight g a b = Ok w -> 1 <= w <= bound.

(** the number of cells inside the grid *)
Definition cell_count (grid : Grid) : Z :=
  Z.of_nat (List.length (all_cells grid)).

(** a step count on the stack never exceeds the number of cells already
    seen *)
Definition stack_bound (grid : Grid) (seen : list cell) (stack : Stack)
  : Prop :=
  forall s n, In (s, n) stack ->
    0 <= s /\ s + Z.of_nat (List.length (unseen grid seen)) <= cell_count grid.

(** ** Corridors of the grid *)

(** [n] is one of the next cells of [c] under the rules of part [p] *)
Definition step (grid : Grid) (p : Z) (c n : cell) : Prop :=
  exists cells, nxt_cells grid p c = Ok cells /\ In n cells.

(** [corridor grid points p a b s]: [s] steps, each admissible under part
    [p], lead from [a] to [b], and no cell strictly between [a] and [b]
    is one of the points *)
Inductive corridor (grid : Grid) (points : list cell) (p : Z) (a : cell)
  : cell -> Z -> Prop :=
| corridor_first (n : cell) :
    step grid p a n -> corridor grid points p a n 1
| corridor_next (c n : cell) (s : Z) :
    corridor grid points p a c s -> ~ In c points -> step grid p c n ->
    corridor grid points p a n (s + 1).

(** the graph has an edge from [a] to [b] *)
Definition has_edge (g : Graph) (a b : cell) : Prop :=
  exists w, weight g a b = Ok w.

(** every edge is backed by a corridor of as many steps as its weight *)
Definition edges_sound (grid : Grid) (points : list cell) (p : Z)
    (g : Graph) : Prop :=
  forall a b w, weight g a b = Ok w -> corridor grid points p a b w.

(** the entries of the stack of one walk: only the source has count 0 *)
Definition stack_ok (src : cell) (stack : Stack) : Prop :=
  forall s n, In (s, n) stack -> 0 <= s /\ (s = 0 <-> n = src).

(** a seen cell the walk from [src] is finished with: a point other than
    the source has its edge, any other cell has all its next cells seen *)
Definition settled (grid : Grid) (points : list cell) (p : Z) (src : cell)
    (seen : list cell) (g : Graph) (c : cell) : Prop :=
  (c <> src /\ In c points /\ has_edge g src c) \/
  ((c = src \/ ~ In c points) /\
   exists cells, nxt_cells grid p c = Ok cells /\ incl cells seen).

(** no mark of the grid points at a wall *)
Definition well_markedb (grid : Grid) : bool :=
  forallb
    (fun c =>
       match grid_at grid c with
       | Ok ch =>
           match forced_dir ch with
           | Some d => negb (is_valid_loc grid (shift c d)) ||
                       passableb grid (shift c d)
           | None => true
           end
       | Raise _ => true
       end)
    (all_cells grid).

(** the two graphs have the same nodes and the same weighted edges,
    whatever the order of their entries *)
Definition same_edges (g1 g2 : Graph) : Prop :=
  (forall c, In c (keys g1) <-> In c (keys g2)) /\
  (forall a b, weight g1 a b = weight g2 a b).

(** an executable form of [weights_bounded] *)
Definition weights_rangeb (bound : Z) (g : Graph) : bool :=
  forallb
    (fun e => forallb (fun bw => (1 <=? snd bw) && (snd bw <=? bound)) (snd e))
    g.

(** an executable form of [same_edges]: the keys agree, and so do the
    weights from every key to every node an edge leads to *)
Definition exn_eqb (e1 e2 : exn) : bool :=
  match e1, e2 with
  | IndexError, IndexError => true
  | KeyError, KeyError => true
  | OverflowError, OverflowError => true
  | OutOfFuel, OutOfFuel => true
  | _, _ => false
  end.

Definition weight_eqb (r1 r2 : result Z) : bool :=
  match r1, r2 with
  | Ok w1, Ok w2 => w1 =? w2
  | Raise e1, Raise e2 => exn_eqb e1 e2
  | _, _ => false
  end.

Definition edge_targets (g : Graph) : list cell :=
  flat_map (fun e => keys (snd e)) g.

Definition same_edgesb (g1 g2 : Graph) : bool :=
  forallb (fun c => cell_in c (keys g2)) (keys g1) &&
  forallb (fun c => cell_in c (keys g1)) (keys g2) &&
  forallb
    (fun a =>
       forallb (fun b => weight_eqb (weight g1 a b) (weight g2 a b))
               (edge_targets g1 ++ edge_targets g2))
    (keys g1).

(** no cell of the grid carries a mark *)
Definition unmarkedb (grid : Grid) : bool :=
  forallb
    (fun c =>
       match grid_at grid c with
       | Ok ch =>
           match forced_dir ch with
           | Some _ => false
           | None => true
           end
       | Raise _ => true
       end)
    (all_cells grid).

(** ** Example grids *)

(** a marked cell on the right edge, pointing out of the grid *)
Definition grid_edge_arrow : Grid := [".."; ".>"]%string.

(** a marked cell pointing at a wall *)
Definition grid_arrow_wall : Grid := [">#"]%string.

(** a crossing of two corridors *)
Definition grid_cross : Grid := ["#.#"; "..."; "#.#"]%string.

(** two nodes and one edge of weight 3 *)
Definition graph_one_edge : Graph := [((0, 0), [((1, 1), 3)]); ((1, 1), [])].

(** one junction, (1, 2), with a corridor that leaves it to the right and
    comes back to it from below *)
Definition grid_loop : Grid := ["##.#"; "...."; ".#.."; ".###"]%string.

(** two junctions, (1, 1) and (3, 5), joined by a corridor of 6 steps and
    by one of 10 steps *)
Definition grid_two_corridors : Grid :=
  ["#.#####";
   "#.....#";
   "#.###.#";
   "#.#...#";
   "#.#.#.#";
   "#...#.#";
   "#####.#"]%string.

(** two junctions, (1, 1) and (4, 3), joined by a corridor of 5 steps,
    which starts with a cell marked ['^'], and by one of 9 steps *)
Definition grid_marked_corridor : Grid :=
  ["#.#####";
   "#.....#";
   "#^###.#";
   "#.###.#";
   "#.....#";
   "###.###"]%string.

(** four nodes; the best way from (0, 0) to (3, 3) is over (1, 1) *)
Definition graph_diamond : Graph :=
  [((0, 0), [((1, 1), 1); ((2, 2), 2)]);
   ((1, 1), [((3, 3), 5); ((2, 2), 3)]);
   ((2, 2), [((3, 3), 1)]);
   ((3, 3), [])].

(** two nodes joined both ways and a third one apart *)
Definition graph_split : Graph :=
  [((0, 0), [((1, 1), 2)]); ((1, 1), [((0, 0), 2)]); ((3, 3), [])].

(** a dead-end edge whose weight does not convert to a float *)
Definition graph_huge_weight : Graph :=
  [((0, 0), [((1, 1), 2 ^ 1024); ((3, 3), 1)]); ((1, 1), []); ((3, 3), [])].

(** the points of [grid_marked_corridor] and the graphs [build_graph]
    returns for it in part 1 and in part 2 *)
Definition points_marked : list cell := [(0, 1); (5, 3); (1, 1); (4, 3)].

Definition graph_marked_1 : Graph :=
  [((0, 1), [((1, 1), 1)]); ((5, 3), [((4, 3), 1)]);
   ((1, 1), [((0, 1), 1); ((4, 3), 9)]); ((4, 3), [((5, 3), 1); ((1, 1), 5)])].

Definition graph_marked_2 : Graph :=
  [((0, 1), [((1, 1), 1)]); ((5, 3), [((4, 3), 1)]);
   ((1, 1), [((0, 1), 1); ((4, 3), 5)]); ((4, 3), [((5, 3), 1); ((1, 1), 5)])].

(** the points of [grid_loop] and its graph in part 2 *)
Definition points_loop : list cell := [(0, 2); (3, 0); (1, 2)].

Definition graph_loop : Graph :=
  [((0, 2), [((1, 2), 1)]); ((3, 0), [((1, 2), 4)]);
   ((1, 2), [((0, 2), 1); ((3, 0), 4)])].

(** [graph_diamond] with its entries in another order *)
Definition graph_diamond_reordered : Graph :=
  [((3, 3), []);
   ((2, 2), [((3, 3), 1)]);
   ((1, 1), [((2, 2), 3); ((3, 3), 5)]);
   ((0, 0), [((2, 2), 2); ((1, 1), 1)])].

(** [graph_diamond] without the edges that leave or reach (1, 1) *)
Definition graph_diamond_sparse : Graph :=
  [((0, 0), [((2, 2), 2)]); ((1, 1), []); ((2, 2), [((3, 3), 1)]);
   ((3, 3), [])].

(** a line without any open cell *)
Definition grid_no_open : Grid := ["#"]%string.

(** * Basic facts *)

Lemma cell_eqb_eq (a b : cell) : cell_eqb a b = true <-> a = b.
Proof.
  destruct a as [a1 a2], b as [b1 b2]; unfold cell_eqb; simpl.
  rewrite andb_true_iff, !Z.eqb_eq. split.
  - intros [-> ->]; reflexivity.
  - intros H; inversion H; auto.
Qed.

Lemma cell_eqb_refl (a : cell) : cell_eqb a a = true.
Proof. apply cell_eqb_eq; reflexivity. Qed.

Lemma cell_eqb_neq (a b : cell) : cell_eqb a b = false <-> a <> b.
Proof.
  rewrite <- cell_eqb_eq. destruct (cell_eqb a b); split; congruence.
Qed.

Lemma cell_eqb_sym (a b : cell) : cell_eqb a b = cell_eqb b a.
Proof.
  destruct (cell_eqb b a) eqn:E.
  - apply cell_eqb_eq in E; subst; apply cell_eqb_refl.
  - apply cell_eqb_neq. apply cell_eqb_neq in E. congruence.
Qed.

Lemma cell_in_In (c : cell) (s : list cell) : cell_in c s = true <-> In c s.
Proof.
  unfold cell_in. rewrite existsb_exists. split.
  - intros [x [Hx E]]. apply cell_eqb_eq in E; subst; assumption.
  - intros H; exists c; split; [assumption | apply cell_eqb_refl].
Qed.

Lemma cell_in_not_In (c : cell) (s : list cell) :
  cell_in c s = false <-> ~ In c s.
Proof.
  rewrite <- cell_in_In. destruct (cell_in c s); split; congruence.
Qed.

Lemma cell_eq_dec (a b : cell) : {a = b} + {a <> b}.
Proof.
  destruct (cell_eqb a b) eqn:E.
  - left; apply cell_eqb_eq; assumption.
  - right; apply cell_eqb_neq; assumption.
Qed.

Lemma len_nonneg {A : Type} (l : list A) : 0 <= len l.
Proof. unfold len; lia. Qed.

Lemma len_app {A : Type} (l1 l2 : list A) : len (l1 ++ l2) = len l1 + len l2.
Proof. unfold len; rewrite List.length_app; lia. Qed.

Lemma len_cons {A : Type} (a : A) (l : list A) : len (a :: l) = len l + 1.
Proof. unfold len; cbn [List.length]; lia. Qed.

Lemma py_getitem_nonneg {A : Type} (l : list A) (i : Z) :
  0 <= i < len l ->
  exists a, py_getitem l i = Ok a /\ nth_error l (Z.to_nat i) = Some a.
Proof.
  intros Hi. unfold py_getitem.
  replace (i <? 0) with false by (symmetry; apply Z.ltb_ge; lia).
  replace ((0 <=? i) && (i <? len l)) with true
    by (symmetry; apply andb_true_iff; split;
        [apply Z.leb_le | apply Z.ltb_lt]; lia).
  destruct (nth_error l (Z.to_nat i)) eqn:E.
  - eauto.
  - apply nth_error_None in E. unfold len in Hi. lia.
Qed.

Lemma In_range (n x : Z) : In x (range n) <-> 0 <= x < n.
Proof.
  unfold range. rewrite in_map_iff. split.
  - intros [k [<- Hk]]. apply in_seq in Hk. lia.
  - intros H. exists (Z.to_nat x). split; [lia | apply in_seq; lia].
Qed.

Lemma for_each_app {A S : Type} (xs ys : list A) (body : A -> S -> result S)
    (st : S) :
  for_each (xs ++ ys) body st =
  (st' <- for_each xs body st ;; for_each ys body st').
Proof.
  revert st; induction xs as [|x xs IH]; intros st; simpl.
  - reflexivity.
  - destruct (body x st); simpl; auto.
Qed.

(** * Endpoints *)

Lemma find_open_from (row : list ascii) (k : nat) :
  match find (fun p : Z * ascii => is_char (snd p) ".")
             (combine (map Z.of_nat (seq k (List.length row))) row) with
  | Some (idx, _) =>
      exists j : nat,
        idx = Z.of_nat (k + j) /\ nth_error row j = Some "."%char /\
        forall j' : nat, nth_error row j' = Some "."%char -> (j <= j')%nat
  | None => forall j : nat, nth_error row j <> Some "."%char
  end.
Proof.
  revert k; induction row as [|ch row IH]; intros k; simpl.
  - intros [|j]; discriminate.
  - unfold is_char at 1; simpl. destruct (Ascii.eqb ch ".") eqn:E.
    + apply Ascii.eqb_eq in E; subst. exists 0%nat.
      repeat split; [f_equal; lia | lia].
    + specialize (IH (S k)).
      destruct (find _ _) as [[idx c]|].
      * destruct IH as [j [-> [Hj Hmin]]]. exists (S j).
        repeat split; [f_equal; lia | assumption |].
        intros [|j'] Hj'; simpl in Hj'.
        -- inversion Hj'; subst. rewrite Ascii.eqb_refl in E; discriminate.
        -- apply Hmin in Hj'; lia.
      * intros [|j]; simpl.
        -- intros H; inversion H; subst.
           rewrite Ascii.eqb_refl in E; discriminate.
        -- apply IH.
Qed.

Lemma first_open_spec (row : list ascii) : endpoint_col row (first_open row).
Proof.
  unfold endpoint_col, first_open, enumerate, range, len.
  rewrite Nat2Z.id. pose proof (find_open_from row 0) as H.
  destruct (find _ _) as [[idx c]|].
  - destruct H as [j [-> [Hj Hmin]]]. left. simpl. unfold row_open.
    rewrite Nat2Z.id. repeat split; [lia | assumption |].
    intros y' [Hy' Hn]. apply Hmin in Hn. lia.
  - right. split; [|reflexivity]. intros y' [_ Hn]. exact (H _ Hn).
Qed.

Lemma py_getitem_first {A : Type} (l : list A) (d : A) :
  l <> [] -> py_getitem l 0 = Ok (hd d l).
Proof.
  destruct l as [|a l]; [congruence|]. intros _.
  destruct (py_getitem_nonneg (a :: l) 0) as [b [-> Hb]].
  - rewrite len_cons. pose proof (len_nonneg l). lia.
  - simpl in Hb. inversion Hb; reflexivity.
Qed.

Lemma py_getitem_last {A : Type} (l : list A) (d : A) :
  l <> [] -> py_getitem l (-1) = Ok (last l d).
Proof.
  intros Hl. unfold py_getitem. cbv zeta.
  change (-1 <? 0) with true. cbv iota.
  assert (Hlen : 0 < len l).
  { destruct l; [congruence|]. rewrite len_cons. pose proof (len_nonneg l). lia. }
  replace ((0 <=? -1 + len l) && (-1 + len l <? len l)) with true
    by (symmetry; apply andb_true_iff; split;
        [apply Z.leb_le | apply Z.ltb_lt]; lia).
  destruct (exists_last Hl) as [l' [a ->]].
  rewrite last_last. unfold len. rewrite List.length_app. simpl List.length.
  replace (Z.to_nat (-1 + Z.of_nat (List.length l' + 1))) with (List.length l')
    by lia.
  rewrite nth_error_app2 by lia. rewrite Nat.sub_diag. reflexivity.
Qed.

(** C4 (as the code has it): on a non-empty grid [get_start_finish] never
    fails.  It reports row 0 with the column of the first ['.'] of the
    first line and the last row with the column of the first ['.'] of the
    last line; for a line without ['.'] it reports column 0. *)
Theorem get_start_finish_spec (grid : Grid) :
  grid <> [] ->
  exists sy fy,
    get_start_finish grid = Ok ((0, sy), (len grid - 1, fy)) /\
    endpoint_col (row_chars (hd ""%string grid)) sy /\
    endpoint_col (row_chars (last grid ""%string)) fy.
Proof.
  intros Hg. unfold get_start_finish.
  rewrite (py_getitem_first grid ""%string Hg).
  rewrite (py_getitem_last grid ""%string Hg). simpl.
  eexists; eexists; split; [reflexivity|].
  split; apply first_open_spec.
Qed.

Lemma get_start_finish_spec_witness :
  exists sy fy,
    get_start_finish ["#.#"; "#.#"]%string = Ok ((0, sy), (len ["#.#"; "#.#"]%string - 1, fy)) /\
    endpoint_col (row_chars (hd ""%string ["#.#"; "#.#"]%string)) sy /\
    endpoint_col (row_chars (last ["#.#"; "#.#"]%string ""%string)) fy.
Proof.
  apply (get_start_finish_spec ["#.#"; "#.#"]%string). discriminate.
Defined.

(** C4 fails as stated: a one-line grid whose line has no open cell makes
    [get_start_finish] return the cell (0, 0) twice instead of failing. *)
Lemma get_start_finish_no_endpoint_error :
  (forall y, ~ row_open (row_chars (hd ""%string grid_no_open)) y) /\
  get_start_finish grid_no_open = Ok ((0, 0), (0, 0)).
Proof.
  split; [|reflexivity].
  intros y [Hy H]. destruct (Z.to_nat y) as [|[|n]]; simpl in H; discriminate.
Qed.

(** when the first line has exactly one open cell, that cell is the one
    reported *)
Lemma endpoint_col_unique (row : list ascii) (y c : Z) :
  endpoint_col row y -> row_open row c ->
  (forall c', row_open row c' -> c' = c) -> y = c.
Proof.
  intros [[Ho _]|[Hn _]] Hc Hu.
  - apply Hu; assumption.
  - exfalso; exact (Hn c Hc).
Qed.

(** * The step functions *)

Lemma collect_open_acc (grid : Grid) (c : cell) (dirs : list (Z * Z))
    (acc cells : list cell) :
  for_each dirs
    (fun d res =>
       let n := shift c d in
       if is_valid_loc grid n
       then ch <- grid_at grid n ;;
            Ok (if negb (is_char ch "#") then res ++ [n] else res)
       else Ok res) acc = Ok cells ->
  cells = acc ++ filter (passableb grid) (map (shift c) dirs).
Proof.
  revert acc; induction dirs as [|d dirs IH]; intros acc; simpl.
  - intros H; inversion H. rewrite app_nil_r; reflexivity.
  - unfold passableb at 1.
    destruct (is_valid_loc grid (shift c d)) eqn:V; simpl.
    + destruct (grid_at grid (shift c d)) as [ch|e]; simpl; [|discriminate].
      destruct (negb (is_char ch "#")); intros H; apply IH in H; subst.
      * rewrite <- app_assoc; reflexivity.
      * reflexivity.
    + intros H; apply IH in H; assumption.
Qed.

Lemma open_neighbors_filter (grid : Grid) (c : cell) (dirs : list (Z * Z))
    (cells : list cell) :
  open_neighbors grid c dirs = Ok cells ->
  cells = filter (passableb grid) (map (shift c) dirs).
Proof. intros H; apply collect_open_acc in H; assumption. Qed.

Lemma open_neighbors_In (grid : Grid) (c : cell) (cells : list cell) :
  open_neighbors grid c step_dirs = Ok cells ->
  forall n, In n cells <-> adjacent c n /\ passableb grid n = true.
Proof.
  intros H n. apply open_neighbors_filter in H; subst.
  rewrite filter_In, in_map_iff. unfold adjacent. split.
  - intros [[d [Hd Hin]] Hp]; eauto.
  - intros [[d [Hin ->]] Hp]; eauto.
Qed.

Lemma passableb_valid (grid : Grid) (n : cell) :
  passableb grid n = true -> is_valid_loc grid n = true.
Proof. unfold passableb; intros H; apply andb_true_iff in H; tauto. Qed.

(** the two ways a marked cell is handled: its neighbour is in bounds and
    is the only next cell, or it is not and the cell counts as unmarked *)
Ltac forced_case H V :=
  inversion H; subst; split;
  [ intros d Hd _; inversion Hd; subst; reflexivity
  | intros [Hn | [d [Hd Hv]]];
    [ discriminate | inversion Hd; subst; congruence ] ].

Ltac open_case H V :=
  split;
  [ intros d Hd Hv; inversion Hd; subst; congruence
  | intros _; apply open_neighbors_In; assumption ].

(** the branches of [get_nxt_cells_p1]: a marked cell whose neighbour in
    the direction of the mark lies inside the grid yields that neighbour
    alone, whatever it holds; any other cell yields its orthogonal
    neighbours that lie inside the grid and are not walls *)
Lemma get_nxt_cells_p1_branches (grid : Grid) (c : cell) (ch : ascii)
    (cells : list cell) :
  grid_at grid c = Ok ch ->
  get_nxt_cells_p1 grid c = Ok cells ->
  (forall d, forced_dir ch = Some d ->
             is_valid_loc grid (shift c d) = true -> cells = [shift c d]) /\
  ((forced_dir ch = None \/
    exists d, forced_dir ch = Some d /\ is_valid_loc grid (shift c d) = false) ->
   forall n, In n cells <-> adjacent c n /\ passableb grid n = true).
Proof.
  intros Hch. unfold get_nxt_cells_p1. rewrite Hch. simpl bind.
  destruct c as [x y]. cbn [fst snd].
  replace (x, y + 1) with (shift (x, y) (0, 1))
    by (unfold shift; cbn [fst snd]; f_equal; lia).
  replace (x, y - 1) with (shift (x, y) (0, -1))
    by (unfold shift; cbn [fst snd]; f_equal; lia).
  replace (x - 1, y) with (shift (x, y) (-1, 0))
    by (unfold shift; cbn [fst snd]; f_equal; lia).
  replace (x + 1, y) with (shift (x, y) (1, 0))
    by (unfold shift; cbn [fst snd]; f_equal; lia).
  unfold forced_dir.
  destruct (is_char ch ">") eqn:E1; cbn [andb].
  { apply Ascii.eqb_eq in E1; subst ch.
    change (is_char ">" "<") with false. change (is_char ">" "^") with false.
    change (is_char ">" "v") with false. cbn [andb].
    destruct (is_valid_loc grid (shift (x, y) (0, 1))) eqn:V; intros H.
    - forced_case H V.
    - open_case H V. }
  destruct (is_char ch "<") eqn:E2; cbn [andb].
  { apply Ascii.eqb_eq in E2; subst ch.
    change (is_char "<" "^") with false.
    change (is_char "<" "v") with false. cbn [andb].
    destruct (is_valid_loc grid (shift (x, y) (0, -1))) eqn:V; intros H.
    - forced_case H V.
    - open_case H V. }
  destruct (is_char ch "^") eqn:E3; cbn [andb].
  { apply Ascii.eqb_eq in E3; subst ch.
    change (is_char "^" "v") with false. cbn [andb].
    destruct (is_valid_loc grid (shift (x, y) (-1, 0))) eqn:V; intros H.
    - forced_case H V.
    - open_case H V. }
  destruct (is_char ch "v") eqn:E4; cbn [andb].
  { destruct (is_valid_loc grid (shift (x, y) (1, 0))) eqn:V; intros H.
    - forced_case H V.
    - open_case H V. }
  intros H. split.
  - intros d Hd; discriminate.
  - intros _. apply (open_neighbors_In grid (x, y)); assumption.
Qed.

(** C3 (as the code has it): in part 1, at a cell whose mark, if it has
    one, does not point at a wall inside the grid, every next cell is
    passable.  A marked cell whose neighbour in the direction of the mark
    is passable has that neighbour as its only next cell.  A cell that is
    unmarked, or marked towards the outside of the grid, has as next
    cells exactly its passable orthogonal neighbours.  Nothing is stated
    of a mark that points at a wall inside the grid. *)
Theorem get_nxt_cells_p1_spec (grid : Grid) (c : cell) (ch : ascii)
    (cells : list cell) :
  grid_at grid c = Ok ch ->
  get_nxt_cells_p1 grid c = Ok cells ->
  ((forall d, forced_dir ch = Some d ->
              is_valid_loc grid (shift c d) = true ->
              passableb grid (shift c d) = true) ->
   forall n, In n cells -> passableb grid n = true) /\
  (forall d, forced_dir ch = Some d ->
             passableb grid (shift c d) = true -> cells = [shift c d]) /\
  ((forced_dir ch = None \/
    exists d, forced_dir ch = Some d /\ is_valid_loc grid (shift c d) = false) ->
   forall n, In n cells <-> adjacent c n /\ passableb grid n = true).
Proof.
  intros Hch H.
  destruct (get_nxt_cells_p1_branches grid c ch cells Hch H) as [Hin Hout].
  split; [|split].
  - intros Hmark n Hn. destruct (forced_dir ch) as [d|] eqn:Hd.
    + destruct (is_valid_loc grid (shift c d)) eqn:Hv.
      * rewrite (Hin d eq_refl Hv) in Hn. destruct Hn as [<-|[]].
        apply Hmark; [reflexivity | assumption].
      * apply (Hout (or_intror (ex_intro _ d (conj eq_refl Hv)))) in Hn.
        tauto.
    + apply (Hout (or_introl eq_refl)) in Hn. tauto.
  - intros d Hd Hp. apply Hin; [assumption|].
    apply passableb_valid. assumption.
  - exact Hout.
Qed.

Lemma get_nxt_cells_p1_spec_witness :
  ((forall d, forced_dir ">" = Some d ->
              is_valid_loc [".>."]%string (shift (0, 1) d) = true ->
              passableb [".>."]%string (shift (0, 1) d) = true) ->
   forall n, In n [(0, 2)] -> passableb [".>."]%string n = true) /\
  (forall d, forced_dir ">" = Some d ->
             passableb [".>."]%string (shift (0, 1) d) = true ->
             [(0, 2)] = [shift (0, 1) d]) /\
  ((forced_dir ">" = None \/
    exists d, forced_dir ">" = Some d /\
              is_valid_loc [".>."]%string (shift (0, 1) d) = false) ->
   forall n, In n [(0, 2)] <->
             adjacent (0, 1) n /\ passableb [".>."]%string n = true).
Proof.
  apply (get_nxt_cells_p1_spec [".>."]%string (0, 1) ">" [(0, 2)]);
    reflexivity.
Defined.

(** C3 fails as stated: the cell (1, 1) of [grid_edge_arrow] is marked
    ['>'], yet its next cells are the two open neighbours to its left and
    above it, not a single cell to its right. *)
Lemma get_nxt_cells_p1_edge_arrow :
  grid_at grid_edge_arrow (1, 1) = Ok ">"%char /\
  get_nxt_cells_p1 grid_edge_arrow (1, 1) = Ok [(1, 0); (0, 1)].
Proof. split; reflexivity. Qed.

(** the marked-cell branches do not look at what the neighbour holds,
    although the module's docstring forbids stepping on ['#'] and the
    unmarked branch tests for it: a mark pointing at a wall yields the
    wall cell *)
Lemma get_nxt_cells_p1_onto_wall :
  get_nxt_cells_p1 grid_arrow_wall (0, 0) = Ok [(0, 1)] /\
  grid_at grid_arrow_wall (0, 1) = Ok "#"%char /\
  passableb grid_arrow_wall (0, 1) = false.
Proof. repeat split; reflexivity. Qed.

(** * Junctions *)

Lemma grid_at_valid (grid : Grid) (c : cell) :
  rectangular grid -> is_valid_loc grid c = true ->
  exists ch, grid_at grid c = Ok ch.
Proof.
  intros Hr Hv. unfold is_valid_loc in Hv.
  apply andb_true_iff in Hv. destruct Hv as [Hx Hy].
  apply andb_true_iff in Hx. destruct Hx as [Hx1 Hx2].
  apply andb_true_iff in Hy. destruct Hy as [Hy1 Hy2].
  apply Z.leb_le in Hx1, Hy1. apply Z.ltb_lt in Hx2, Hy2.
  unfold grid_at.
  destruct (py_getitem_nonneg grid (fst c)) as [row [-> Hrow]]; [lia|].
  simpl. apply nth_error_In in Hrow.
  unfold rectangular in Hr. rewrite Forall_forall in Hr.
  apply Hr in Hrow.
  destruct (py_getitem_nonneg (row_chars row) (snd c)) as [ch [-> _]];
    [lia | eauto].
Qed.

Lemma count_neighbors_acc (grid : Grid) (c : cell) (dirs : list (Z * Z))
    (acc : Z) :
  rectangular grid ->
  for_each dirs
    (fun d neighbors =>
       let n := shift c d in
       if is_valid_loc grid n
       then ch <- grid_at grid n ;;
            Ok (if negb (is_char ch "#") then neighbors + 1 else neighbors)
       else Ok neighbors) acc =
  Ok (acc + len (filter (passableb grid) (map (shift c) dirs))).
Proof.
  intros Hr. revert acc; induction dirs as [|d dirs IH]; intros acc; simpl.
  - f_equal. unfold len; simpl; lia.
  - unfold passableb at 1.
    destruct (is_valid_loc grid (shift c d)) eqn:V; simpl.
    + destruct (grid_at_valid grid _ Hr V) as [ch ->]. simpl.
      destruct (negb (is_char ch "#")); rewrite IH; f_equal.
      rewrite len_cons; lia.
    + apply IH.
Qed.

Lemma count_neighbors_degree (grid : Grid) (c : cell) :
  rectangular grid -> count_neighbors grid c = Ok (degree grid c).
Proof.
  intros Hr. unfold count_neighbors, degree.
  rewrite count_neighbors_acc by assumption. reflexivity.
Qed.

Lemma option_point_step_spec (grid : Grid) (c : cell) (points : list cell) :
  rectangular grid -> is_valid_loc grid c = true ->
  option_point_step grid c points =
  Ok (if junctionb grid c then points ++ [c] else points).
Proof.
  intros Hr Hv. unfold option_point_step, junctionb, passableb.
  rewrite Hv. destruct (grid_at_valid grid c Hr Hv) as [ch ->]. simpl.
  destruct (is_char ch "#"); simpl; [reflexivity|].
  rewrite count_neighbors_degree by assumption. reflexivity.
Qed.

Lemma for_each_append_if {A : Type} (xs : list A) (f : A -> bool)
    (g : A -> cell) (body : A -> list cell -> result (list cell)) :
  (forall x pts, In x xs ->
                 body x pts = Ok (if f x then pts ++ [g x] else pts)) ->
  forall pts, for_each xs body pts = Ok (pts ++ map g (filter f xs)).
Proof.
  induction xs as [|x xs IH]; intros Hb pts; simpl.
  - rewrite app_nil_r; reflexivity.
  - rewrite Hb by (left; reflexivity). simpl.
    rewrite IH by (intros; apply Hb; right; assumption).
    destruct (f x); simpl; [rewrite <- app_assoc|]; reflexivity.
Qed.

Lemma for_each_append_all {A : Type} (xs : list A) (h : A -> list cell)
    (body : A -> list cell -> result (list cell)) :
  (forall x pts, In x xs -> body x pts = Ok (pts ++ h x)) ->
  forall pts, for_each xs body pts = Ok (pts ++ flat_map h xs).
Proof.
  induction xs as [|x xs IH]; intros Hb pts; simpl.
  - rewrite app_nil_r; reflexivity.
  - rewrite Hb by (left; reflexivity). simpl.
    rewrite IH by (intros; apply Hb; right; assumption).
    rewrite <- app_assoc; reflexivity.
Qed.

Lemma is_valid_loc_range (grid : Grid) (x y : Z) :
  is_valid_loc grid (x, y) = true <->
  In x (range (len grid)) /\ In y (range (width grid)).
Proof.
  unfold is_valid_loc. cbn [fst snd].
  rewrite !andb_true_iff, !Z.leb_le, !Z.ltb_lt, !In_range. tauto.
Qed.

Lemma get_option_points_In (grid : Grid) (start finish : cell) :
  rectangular grid ->
  exists pts,
    get_option_points grid start finish = Ok pts /\
    forall c, In c pts <->
              c = start \/ c = finish \/
              (passableb grid c = true /\ 3 <= degree grid c).
Proof.
  intros Hr. unfold get_option_points.
  rewrite (for_each_append_all (range (len grid))
             (fun x => map (fun y => (x, y))
                         (filter (fun y => junctionb grid (x, y))
                                 (range (width grid))))).
  - eexists; split; [reflexivity|]. intros c.
    rewrite in_app_iff, in_flat_map. simpl. split.
    + intros [[H|[H|[]]]|[x [Hx Hc]]]; auto.
      apply in_map_iff in Hc. destruct Hc as [y [<- Hy]].
      apply filter_In in Hy. destruct Hy as [_ Hj].
      unfold junctionb in Hj. apply andb_true_iff in Hj.
      right; right. rewrite <- Z.leb_le. assumption.
    + intros [H|[H|[Hp Hd]]]; auto.
      right. destruct c as [x y].
      pose proof (passableb_valid _ _ Hp) as Hv.
      apply is_valid_loc_range in Hv. destruct Hv as [Hx Hy].
      exists x; split; [assumption|].
      apply in_map_iff. exists y; split; [reflexivity|].
      apply filter_In; split; [assumption|].
      unfold junctionb. rewrite Hp. apply Z.leb_le in Hd. rewrite Hd.
      reflexivity.
  - intros x pts Hx.
    apply (for_each_append_if (range (width grid))
             (fun y => junctionb grid (x, y)) (fun y => (x, y))).
    intros y pts' Hy. apply option_point_step_spec; [assumption|].
    apply is_valid_loc_range; split; assumption.
Qed.

(** C7: on a rectangular grid [get_option_points] returns a list in which
    a passable cell other than the two endpoints occurs exactly when it
    has three or more passable orthogonal neighbours; a cell with exactly
    two passable neighbours, other than the endpoints, never occurs. *)
Theorem get_option_points_junctions (grid : Grid) (start finish : cell) :
  rectangular grid ->
  exists pts,
    get_option_points grid start finish = Ok pts /\
    (forall c, passableb grid c = true -> c <> start -> c <> finish ->
               (In c pts <-> 3 <= degree grid c)) /\
    (forall c, c <> start -> c <> finish -> degree grid c = 2 ->
               ~ In c pts).
Proof.
  intros Hr.
  destruct (get_option_points_In grid start finish Hr) as [pts [E H]].
  exists pts; split; [assumption|]. split.
  - intros c Hp Hs Hf. rewrite H. split.
    + intros [?|[?|[_ ?]]]; [contradiction | contradiction | assumption].
    + intros Hd; right; right; split; assumption.
  - intros c Hs Hf Hd Hin. apply H in Hin.
    destruct Hin as [?|[?|[_ ?]]]; [contradiction | contradiction | lia].
Qed.

Lemma get_option_points_junctions_witness :
  exists pts,
    get_option_points grid_cross (0, 1) (2, 1) = Ok pts /\
    (forall c, passableb grid_cross c = true -> c <> (0, 1) -> c <> (2, 1) ->
               (In c pts <-> 3 <= degree grid_cross c)) /\
    (forall c, c <> (0, 1) -> c <> (2, 1) -> degree grid_cross c = 2 ->
               ~ In c pts).
Proof.
  apply (get_option_points_junctions grid_cross (0, 1) (2, 1)).
  repeat constructor.
Defined.

(** * The search *)

Lemma dict_get_In_keys {V : Type} (d : dict V) (k : cell) (v : V) :
  dict_get d k = Ok v -> In k (keys d).
Proof.
  induction d as [|[k' v'] d IH]; simpl; [discriminate|].
  destruct (cell_eqb k k') eqn:E.
  - apply cell_eqb_eq in E; subst; auto.
  - intros H; right; auto.
Qed.

Lemma In_keys_dict_get {V : Type} (d : dict V) (k : cell) :
  In k (keys d) -> exists v, dict_get d k = Ok v.
Proof.
  induction d as [|[k' v'] d IH]; simpl; [tauto|].
  intros H. destruct (cell_eqb k k') eqn:E; [eauto|].
  apply cell_eqb_neq in E. destruct H as [H|H]; [congruence | auto].
Qed.

Lemma set_add_fresh (c : cell) (s : list cell) :
  ~ In c s -> set_add c s = c :: s.
Proof.
  intros H. unfold set_add. apply cell_in_not_In in H. rewrite H. reflexivity.
Qed.

Lemma filter_other_id (c : cell) (s : list cell) :
  ~ In c s -> filter (fun d => negb (cell_eqb c d)) s = s.
Proof.
  induction s as [|a s IH]; simpl; [reflexivity|].
  intros H. destruct (cell_eqb c a) eqn:E.
  - apply cell_eqb_eq in E. subst. tauto.
  - simpl. rewrite IH by tauto. reflexivity.
Qed.

Lemma set_remove_head (c : cell) (s : list cell) :
  ~ In c s -> set_remove c (c :: s) = Ok s.
Proof.
  intros H. unfold set_remove, cell_in. simpl.
  rewrite cell_eqb_refl. simpl. rewrite filter_other_id by assumption.
  reflexivity.
Qed.

(** the loop of [dfs] leaves the visited set as it found it, as soon as
    the calls it makes do *)
Lemma dfs_loop_visited
    (rec : cell -> list cell -> result (steps * list cell))
    (graph : Graph) (curr : cell) (vis : list cell) :
  (forall nxt r vis', ~ In nxt vis -> rec nxt vis = Ok (r, vis') -> vis' = vis) ->
  forall ks acc acc' vis',
    for_each ks (dfs_body rec graph curr) (acc, vis) = Ok (acc', vis') ->
    vis' = vis.
Proof.
  intros Hrec. induction ks as [|k ks IH]; intros acc acc' vis'; simpl.
  - intros H; inversion H; reflexivity.
  - destruct (cell_in k vis) eqn:E; simpl.
    + apply IH.
    + destruct (rec k vis) as [[r v]|e] eqn:R; simpl; [|discriminate].
      apply cell_in_not_In in E. apply Hrec in R; [subst v | assumption].
      destruct (weight graph curr k) as [w|e]; simpl; [|discriminate].
      destruct (steps_add r w) as [s|e]; simpl; [|discriminate].
      apply IH.
Qed.

Lemma dfs_restores (fuel : nat) (graph : Graph) (finish : cell) :
  forall curr vis r vis',
    ~ In curr vis ->
    dfs fuel graph curr finish vis = Ok (r, vis') -> vis' = vis.
Proof.
  induction fuel as [|fuel IH]; intros curr vis r vis' Hc; simpl;
    [discriminate|].
  destruct (cell_eqb curr finish).
  - intros H; inversion H; reflexivity.
  - rewrite set_add_fresh by assumption.
    destruct (dict_get graph curr) as [adj|e]; simpl; [|discriminate].
    destruct (for_each _ _ _) as [[m v]|e] eqn:L; simpl; [|discriminate].
    apply dfs_loop_visited in L.
    + subst v. rewrite set_remove_head by assumption. simpl.
      intros H; inversion H; reflexivity.
    + intros nxt r0 v0 Hn. apply IH; assumption.
Qed.

(** C8: a top-level search that returns leaves its visited set empty, so a
    second search that were handed the very same set object would return
    what [get_max_steps] returns with its own new set. *)
Theorem get_max_steps_no_residue (graph1 graph2 : Graph)
    (start finish : cell) (r1 : steps) (visited : list cell) :
  dfs (dfs_fuel graph1) graph1 start finish [] = Ok (r1, visited) ->
  visited = [] /\
  ('(r2, _) <- dfs (dfs_fuel graph2) graph2 start finish visited ;; Ok r2)
  = get_max_steps graph2 start finish.
Proof.
  intros H. apply dfs_restores in H; [|intros []].
  subst visited. split; reflexivity.
Qed.

Lemma get_max_steps_no_residue_witness :
  @nil cell = [] /\
  ('(r2, _) <- dfs (dfs_fuel graph_one_edge) graph_one_edge (0, 0) (1, 1) [] ;;
   Ok r2)
  = get_max_steps graph_one_edge (0, 0) (1, 1).
Proof.
  apply (get_max_steps_no_residue graph_one_edge graph_one_edge
           (0, 0) (1, 1) (Fin 3) []).
  reflexivity.
Defined.

Section Paths.

Variable graph : Graph.
Variable finish : cell.

Lemma last_any_default {A : Type} (l : list A) (d d' : A) :
  l <> [] -> last l d = last l d'.
Proof.
  induction l as [|a l IH]; [congruence|]. intros _.
  destruct l as [|b l]; [reflexivity|].
  change (last (b :: l) d = last (b :: l) d'). apply IH. discriminate.
Qed.

Lemma last_In {A : Type} (l : list A) (d : A) : l <> [] -> In (last l d) l.
Proof.
  induction l as [|a l IH]; [congruence|]. intros _.
  destruct l as [|b l]; [left; reflexivity|].
  right. change (In (last (b :: l) d) (b :: l)). apply IH. discriminate.
Qed.

Lemma simple_path_done : simple_path graph finish finish [finish] 0.
Proof.
  unfold simple_path; simpl. repeat split; auto.
  constructor; [intros [] | constructor].
Qed.

Lemma simple_path_at_finish (p : list cell) (m : Z) :
  simple_path graph finish finish p m -> p = [finish] /\ m = 0.
Proof.
  intros [Hh [Hl [Hn Hw]]]. destruct p as [|a p]; [discriminate|].
  simpl in Hh. inversion Hh; subst a.
  destruct p as [|b p].
  - simpl in Hw. inversion Hw; auto.
  - exfalso. inversion Hn as [|? ? Hnot _]; subst. apply Hnot.
    change (last (b :: p) finish = finish) in Hl. rewrite <- Hl at 1.
    apply last_In. discriminate.
Qed.

Lemma simple_path_cons (c b : cell) (w m : Z) (p : list cell) :
  weight graph c b = Ok w ->
  simple_path graph b finish p m ->
  ~ In c p ->
  simple_path graph c finish (c :: p) (m + w).
Proof.
  intros Hw [Hh [Hl [Hn Hp]]] Hc.
  destruct p as [|b' p]; [discriminate|].
  simpl in Hh. inversion Hh; subst b'.
  unfold simple_path. repeat split.
  - change (last (b :: p) c = finish). rewrite <- Hl.
    apply last_any_default. discriminate.
  - constructor; assumption.
  - change (path_weight graph (c :: b :: p))
      with (w0 <- weight graph c b ;;
            m0 <- path_weight graph (b :: p) ;; Ok (w0 + m0)).
    rewrite Hw, Hp. simpl. f_equal. lia.
Qed.

Lemma simple_path_step (c : cell) (p : list cell) (m : Z) :
  c <> finish ->
  simple_path graph c finish p m ->
  exists b p' w m',
    p = c :: p' /\ nth_error p 1 = Some b /\
    weight graph c b = Ok w /\
    simple_path graph b finish p' m' /\
    m = m' + w /\ ~ In c p'.
Proof.
  intros Hc [Hh [Hl [Hn Hp]]]. destruct p as [|a p]; [discriminate|].
  simpl in Hh. inversion Hh; subst a.
  destruct p as [|b p]; [simpl in Hl; congruence|].
  change (path_weight graph (c :: b :: p))
    with (w0 <- weight graph c b ;;
          m0 <- path_weight graph (b :: p) ;; Ok (w0 + m0)) in Hp.
  destruct (weight graph c b) as [w|e] eqn:Hw; cbn [bind] in Hp;
    [|discriminate].
  destruct (path_weight graph (b :: p)) as [m'|e] eqn:Hm; cbn [bind] in Hp;
    [|discriminate].
  inversion Hp; subst m. inversion Hn; subst.
  exists b, (b :: p), w, m'. repeat split; auto; try lia.
  change (last (c :: b :: p) c) with (last (b :: p) c).
  apply last_any_default. discriminate.
Qed.

Lemma avoiding_tail (vis : list cell) (c : cell) (p : list cell) :
  avoiding vis (c :: p) -> ~ In c p -> avoiding (c :: vis) p.
Proof.
  intros Ha Hc x Hx [Hx'|Hx'].
  - subst x. contradiction.
  - apply (Ha x); [right|]; assumption.
Qed.

Lemma avoiding_cons (vis : list cell) (c : cell) (p : list cell) :
  avoiding (c :: vis) p -> ~ In c vis -> avoiding vis (c :: p).
Proof.
  intros Ha Hc x [Hx|Hx] Hv.
  - subst x. contradiction.
  - apply (Ha x Hx). right; assumption.
Qed.

End Paths.

Section LongestPath.

Variable graph : Graph.
Variable finish : cell.
Hypothesis Hclosed : graph_closed graph.
Hypothesis Hweights : weights_ok graph.

Lemma weight_of_adj (c k : cell) (adj : dict Z) :
  dict_get graph c = Ok adj -> In k (keys adj) ->
  exists w, weight graph c k = Ok w.
Proof.
  intros Hc Hk. unfold weight. rewrite Hc. simpl.
  apply In_keys_dict_get; assumption.
Qed.

Lemma adj_of_weight (c b : cell) (w : Z) :
  weight graph c b = Ok w ->
  exists adj, dict_get graph c = Ok adj /\ In b (keys adj).
Proof.
  unfold weight. destruct (dict_get graph c) as [adj|e]; simpl;
    [|discriminate].
  intros H. exists adj; split; [reflexivity|].
  eapply dict_get_In_keys; eassumption.
Qed.

Lemma via_decompose (c k : cell) (vis p : list cell) (m : Z) :
  c <> finish ->
  simple_path graph c finish p m -> avoiding vis p ->
  nth_error p 1 = Some k ->
  exists p' w m',
    weight graph c k = Ok w /\ simple_path graph k finish p' m' /\
    avoiding (c :: vis) p' /\ m = m' + w /\ In k p' /\ ~ In c p'.
Proof.
  intros Hc Hp Ha Hk.
  destruct (simple_path_step graph finish c p m Hc Hp)
    as [b [p' [w [m' [-> [Hb [Hw [Hp' [-> Hn]]]]]]]]].
  rewrite Hk in Hb. inversion Hb; subst b.
  exists p', w, m'.
  split; [assumption|]. split; [assumption|].
  split; [apply avoiding_tail; assumption|].
  split; [reflexivity|]. split; [|assumption].
  destruct Hp' as [Hh _]. destruct p'; [discriminate|].
  simpl in Hh. inversion Hh. left; reflexivity.
Qed.

Lemma best_via_skip (c k : cell) (vis done : list cell) (acc : steps) :
  c <> finish ->
  best_via graph finish vis c done acc -> In k (c :: vis) ->
  best_via graph finish vis c (done ++ [k]) acc.
Proof.
  intros Hc Hacc Hk.
  assert (Hno : forall p m, simple_path graph c finish p m ->
                            avoiding vis p -> nth_error p 1 = Some k ->
                            False).
  { intros p m Hp Ha Hn.
    destruct (via_decompose c k vis p m Hc Hp Ha Hn)
      as [p' [w [m' [_ [_ [Ha' [_ [Hin _]]]]]]]].
    exact (Ha' k Hin Hk). }
  destruct acc as [|a]; simpl in *.
  - intros p m b Hp Ha Hn Hb. apply in_app_or in Hb.
    destruct Hb as [Hb|[Hb|[]]].
    + exact (Hacc p m b Hp Ha Hn Hb).
    + subst b. exact (Hno p m Hp Ha Hn).
  - destruct Hacc as [Hex Hmax]. split; [assumption|].
    intros p m' b Hp Ha Hn Hb. apply in_app_or in Hb.
    destruct Hb as [Hb|[Hb|[]]].
    + exact (Hmax p m' b Hp Ha Hn Hb).
    + subst b. exfalso. exact (Hno p m' Hp Ha Hn).
Qed.

Lemma best_via_dead (c k : cell) (vis done : list cell) (acc : steps) :
  c <> finish ->
  best_via graph finish vis c done acc ->
  best graph finish (c :: vis) k NegInf ->
  best_via graph finish vis c (done ++ [k]) acc.
Proof.
  intros Hc Hacc Hk. simpl in Hk.
  assert (Hno : forall p m, simple_path graph c finish p m ->
                            avoiding vis p -> nth_error p 1 = Some k ->
                            False).
  { intros p m Hp Ha Hn.
    destruct (via_decompose c k vis p m Hc Hp Ha Hn)
      as [p' [w [m' [_ [Hp' [Ha' _]]]]]].
    exact (Hk p' m' Hp' Ha'). }
  destruct acc as [|a]; simpl in *.
  - intros p m b Hp Ha Hn Hb. apply in_app_or in Hb.
    destruct Hb as [Hb|[Hb|[]]].
    + exact (Hacc p m b Hp Ha Hn Hb).
    + subst b. exact (Hno p m Hp Ha Hn).
  - destruct Hacc as [Hex Hmax]. split; [assumption|].
    intros p m' b Hp Ha Hn Hb. apply in_app_or in Hb.
    destruct Hb as [Hb|[Hb|[]]].
    + exact (Hmax p m' b Hp Ha Hn Hb).
    + subst b. exfalso. exact (Hno p m' Hp Ha Hn).
Qed.

Lemma best_via_found (c k : cell) (vis done : list cell) (acc : steps)
    (w m0 : Z) :
  c <> finish -> ~ In c vis ->
  weight graph c k = Ok w ->
  best_via graph finish vis c done acc ->
  best graph finish (c :: vis) k (Fin m0) ->
  best_via graph finish vis c (done ++ [k]) (py_max acc (Fin (m0 + w))).
Proof.
  intros Hc Hcv Hw Hacc [[p0 [Hp0 Ha0]] Hmax0].
  assert (Hnew : exists p, simple_path graph c finish p (m0 + w) /\
                           avoiding vis p).
  { exists (c :: p0). split.
    - apply simple_path_cons with (b := k); auto.
      intros Hin. apply (Ha0 c Hin). left; reflexivity.
    - apply avoiding_cons; assumption. }
  assert (Hk : forall p m, simple_path graph c finish p m ->
                           avoiding vis p -> nth_error p 1 = Some k ->
                           m <= m0 + w).
  { intros p m Hp Ha Hn.
    destruct (via_decompose c k vis p m Hc Hp Ha Hn)
      as [p' [w' [m' [Hw' [Hp' [Ha' [-> _]]]]]]].
    rewrite Hw in Hw'. inversion Hw'; subst w'.
    specialize (Hmax0 p' m' Hp' Ha'). lia. }
  unfold py_max. destruct acc as [|a]; simpl in *.
  - split; [assumption|].
    intros p m' b Hp Ha Hn Hb. apply in_app_or in Hb.
    destruct Hb as [Hb|[Hb|[]]].
    + exfalso. exact (Hacc p m' b Hp Ha Hn Hb).
    + subst b. exact (Hk p m' Hp Ha Hn).
  - destruct Hacc as [Hex Hmax].
    destruct (a <? m0 + w) eqn:E; simpl.
    + apply Z.ltb_lt in E. split; [assumption|].
      intros p m' b Hp Ha Hn Hb. apply in_app_or in Hb.
      destruct Hb as [Hb|[Hb|[]]].
      * specialize (Hmax p m' b Hp Ha Hn Hb). lia.
      * subst b. exact (Hk p m' Hp Ha Hn).
    + apply Z.ltb_ge in E. split; [assumption|].
      intros p m' b Hp Ha Hn Hb. apply in_app_or in Hb.
      destruct Hb as [Hb|[Hb|[]]].
      * exact (Hmax p m' b Hp Ha Hn Hb).
      * subst b. specialize (Hk p m' Hp Ha Hn). lia.
Qed.

Lemma dfs_loop_best
    (rec : cell -> list cell -> result (steps * list cell))
    (c : cell) (vis : list cell) (adj : dict Z) :
  c <> finish -> ~ In c vis -> dict_get graph c = Ok adj ->
  (forall nxt, ~ In nxt (c :: vis) -> In nxt (keys adj) ->
     exists r, rec nxt (c :: vis) = Ok (r, c :: vis) /\
               best graph finish (c :: vis) nxt r) ->
  forall ks done acc,
    incl ks (keys adj) ->
    best_via graph finish vis c done acc ->
    exists acc',
      for_each ks (dfs_body rec graph c) (acc, c :: vis)
      = Ok (acc', c :: vis) /\
      best_via graph finish vis c (done ++ ks) acc'.
Proof.
  intros Hc Hcv Hadj Hrec.
  induction ks as [|k ks IH]; intros done acc Hks Hacc.
  - exists acc. rewrite app_nil_r. split; [reflexivity | assumption].
  - assert (Hk : In k (keys adj)) by (apply Hks; left; reflexivity).
    assert (Hks' : incl ks (keys adj))
      by (intros x Hx; apply Hks; right; assumption).
    replace (done ++ k :: ks) with ((done ++ [k]) ++ ks)
      by (rewrite <- app_assoc; reflexivity).
    cbn [for_each]. unfold dfs_body at 1.
    destruct (cell_in k (c :: vis)) eqn:E.
    + apply cell_in_In in E. cbn [bind].
      apply IH; [assumption|]. apply best_via_skip; assumption.
    + apply cell_in_not_In in E.
      destruct (Hrec k E Hk) as [r [-> Hr]]. cbn [bind].
      destruct (weight_of_adj c k adj Hadj Hk) as [w Hw].
      rewrite Hw. cbn [bind].
      destruct r as [|m0]; simpl steps_add.
      * rewrite (Hweights c k w Hw). cbn [bind].
        replace (py_max acc NegInf) with acc
          by (destruct acc; reflexivity).
        apply IH; [assumption|]. apply best_via_dead; assumption.
      * cbn [bind]. apply IH; [assumption|].
        apply best_via_found; assumption.
Qed.

Lemma best_via_all (c : cell) (vis : list cell) (adj : dict Z) (r : steps) :
  c <> finish -> dict_get graph c = Ok adj ->
  best_via graph finish vis c (keys adj) r ->
  best graph finish vis c r.
Proof.
  intros Hc Hadj H.
  assert (Hsnd : forall p m, simple_path graph c finish p m ->
                   exists b, nth_error p 1 = Some b /\ In b (keys adj)).
  { intros p m Hp.
    destruct (simple_path_step graph finish c p m Hc Hp)
      as [b [p' [w [m' [_ [Hb [Hw _]]]]]]].
    exists b; split; [assumption|].
    destruct (adj_of_weight c b w Hw) as [adj' [Hadj' Hin]].
    rewrite Hadj in Hadj'. inversion Hadj'; subst. assumption. }
  destruct r as [|m]; simpl in *.
  - intros p m Hp Ha. destruct (Hsnd p m Hp) as [b [Hb Hin]].
    exact (H p m b Hp Ha Hb Hin).
  - destruct H as [Hex Hmax]. split; [assumption|].
    intros p m' Hp Ha. destruct (Hsnd p m' Hp) as [b [Hb Hin]].
    exact (Hmax p m' b Hp Ha Hb Hin).
Qed.

(** with enough fuel [dfs] returns, restores the visited set, and yields
    the best weight of a simple path to [finish] clear of that set *)
Lemma dfs_best (fuel : nat) :
  forall c vis,
    NoDup vis -> incl vis (keys graph) -> ~ In c vis ->
    c = finish \/ In c (keys graph) ->
    (List.length graph < fuel + List.length vis)%nat ->
    exists r, dfs fuel graph c finish vis = Ok (r, vis) /\
              best graph finish vis c r.
Proof.
  induction fuel as [|fuel IH]; intros c vis Hnd Hincl Hc Hkey Hfuel.
  - exfalso. apply NoDup_incl_length in Hincl; [|assumption].
    unfold keys in Hincl. rewrite List.length_map in Hincl. simpl in Hfuel. lia.
  - cbn [dfs]. destruct (cell_eqb c finish) eqn:E.
    + apply cell_eqb_eq in E; subst c. exists (Fin 0).
      split; [reflexivity|]. simpl. split.
      * exists [finish]. split; [apply simple_path_done|].
        intros x [<-|[]]; assumption.
      * intros p m' Hp _.
        apply simple_path_at_finish in Hp. destruct Hp as [_ ->]. lia.
    + apply cell_eqb_neq in E.
      destruct Hkey as [Hkey|Hkey]; [contradiction|].
      destruct (In_keys_dict_get graph c Hkey) as [adj Hadj].
      rewrite set_add_fresh by assumption. rewrite Hadj. cbn [bind].
      destruct (dfs_loop_best (fun nxt v => dfs fuel graph nxt finish v)
                  c vis adj E Hc Hadj) with (ks := keys adj)
                  (done := @nil cell) (acc := NegInf)
        as [acc [-> Hacc]].
      * intros nxt Hn Hin. apply IH.
        -- constructor; assumption.
        -- intros x [<-|Hx]; [assumption | apply Hincl; assumption].
        -- assumption.
        -- right. eapply Hclosed; eassumption.
        -- simpl. lia.
      * apply incl_refl.
      * simpl. intros p m b _ _ _ [].
      * cbn [bind]. rewrite set_remove_head by assumption. cbn [bind].
        exists acc. split; [reflexivity|].
        eapply best_via_all; eassumption.
Qed.

Lemma get_max_steps_best (start : cell) :
  start = finish \/ In start (keys graph) ->
  exists r, get_max_steps graph start finish = Ok r /\
            best graph finish [] start r.
Proof.
  intros Hs. unfold get_max_steps, dfs_fuel.
  destruct (dfs_best (S (List.length graph)) start [])
    as [r [-> Hr]]; auto.
  - constructor.
  - intros x [].
  - simpl; lia.
  - exists r; split; [reflexivity | assumption].
Qed.

End LongestPath.

(** * Graph construction *)

Lemma In_keys_dict_set {V : Type} (d : dict V) (k x : cell) (v : V) :
  In x (keys (dict_set d k v)) <-> x = k \/ In x (keys d).
Proof.
  induction d as [|[k' v'] d IH]; simpl.
  - split; [intros [H|[]]; auto | intros [H|[]]; auto].
  - destruct (cell_eqb k k') eqn:E; simpl.
    + apply cell_eqb_eq in E; subst k'. split; [auto|].
      intros [H|H]; auto.
    + rewrite IH. tauto.
Qed.

Lemma dict_get_dict_set {V : Type} (d : dict V) (k x : cell) (v : V) :
  dict_get (dict_set d k v) x = if cell_eqb x k then Ok v else dict_get d x.
Proof.
  induction d as [|[k' v'] d IH]; simpl.
  - reflexivity.
  - destruct (cell_eqb k k') eqn:E; simpl.
    + apply cell_eqb_eq in E; subst k'.
      destruct (cell_eqb x k); reflexivity.
    + rewrite IH. destruct (cell_eqb x k') eqn:E'; [|reflexivity].
      apply cell_eqb_eq in E'; subst k'.
      rewrite cell_eqb_sym, E. reflexivity.
Qed.

Lemma empty_graph_acc (points : list cell) (g : Graph) :
  (forall a adj, dict_get g a = Ok adj -> adj = []) ->
  (forall x, In x (keys (fold_left (fun g pt => dict_set g pt []) points g))
             <-> In x points \/ In x (keys g)) /\
  (forall a adj,
     dict_get (fold_left (fun g pt => dict_set g pt []) points g) a = Ok adj ->
     adj = []).
Proof.
  revert g; induction points as [|pt points IH]; intros g Hg; simpl.
  - split; [tauto | assumption].
  - destruct (IH (dict_set g pt [])) as [Hk Hv].
    + intros a adj. rewrite dict_get_dict_set.
      destruct (cell_eqb a pt); [intros H; inversion H; reflexivity|].
      apply Hg.
    + split; [|assumption]. intros x. rewrite Hk, In_keys_dict_set.
      split; [intros [H|[H|H]] | intros [[H|H]|H]]; auto.
Qed.

Lemma empty_graph_inv (points : list cell) :
  graph_inv points (empty_graph points).
Proof.
  destruct (empty_graph_acc points []) as [Hk Hv]; [discriminate|].
  split.
  - intros x. unfold empty_graph. rewrite Hk. simpl. tauto.
  - intros a adj b Ha Hb. apply Hv in Ha. subst adj. destruct Hb.
Qed.

Lemma add_edge_inv (points : list cell) (g g' : Graph) (src n : cell)
    (steps : Z) :
  graph_inv points g -> In n points -> n <> src ->
  add_edge g src n steps = Ok g' -> graph_inv points g'.
Proof.
  intros [Hk He] Hn Hne. unfold add_edge.
  destruct (dict_get g src) as [adj|e] eqn:Hsrc; simpl; [|discriminate].
  intros H; inversion H; subst g'; clear H. split.
  - intros x. rewrite In_keys_dict_set, <- Hk.
    apply dict_get_In_keys in Hsrc. split; [intros [->|H]; auto | auto].
  - intros a adj' b. rewrite dict_get_dict_set.
    destruct (cell_eqb a src) eqn:E.
    + apply cell_eqb_eq in E; subst a. intros H; inversion H; subst adj'.
      rewrite In_keys_dict_set. intros [->|Hb]; [auto|].
      apply (He src adj b); assumption.
    + apply He.
Qed.

Lemma add_edge_total (points : list cell) (g : Graph) (src n : cell)
    (steps : Z) :
  graph_inv points g -> In src points ->
  exists g', add_edge g src n steps = Ok g'.
Proof.
  intros [Hk _] Hsrc. apply Hk in Hsrc.
  destruct (In_keys_dict_get g src Hsrc) as [adj Hadj].
  unfold add_edge. rewrite Hadj. simpl. eauto.
Qed.

Lemma push_unseen_spec (steps : Z) (cells : list cell) :
  forall stack seen stack' seen',
    push_unseen steps cells (stack, seen) = (stack', seen') ->
    (forall s n, In (s, n) stack' ->
                 In (s, n) stack \/
                 (s = steps + 1 /\ In n cells /\ ~ In n seen)) /\
    (forall x, In x seen -> In x seen').
Proof.
  unfold push_unseen.
  induction cells as [|c cells IH]; intros stack seen stack' seen'; simpl.
  - intros H; inversion H; subst. split; auto.
  - destruct (cell_in c seen) eqn:E.
    + intros H. apply IH in H. destruct H as [H1 H2]. split; [|assumption].
      intros s n Hin. destruct (H1 s n Hin) as [?|[? [? ?]]]; auto.
    + apply cell_in_not_In in E. rewrite set_add_fresh by assumption.
      intros H. apply IH in H. destruct H as [H1 H2]. split.
      * intros s n Hin. destruct (H1 s n Hin) as [[Heq|?]|[? [? Hns]]]; auto.
        -- inversion Heq; subst. right; auto.
        -- right. repeat split; auto. intros Hs; apply Hns; right; assumption.
      * intros x Hx. apply H2. right; assumption.
Qed.

Lemma nxt_cells_valid (grid : Grid) (p : Z) (c : cell) (cells : list cell) :
  nxt_cells grid p c = Ok cells ->
  forall n, In n cells -> is_valid_loc grid n = true.
Proof.
  assert (Hopen : forall cells, open_neighbors grid c step_dirs = Ok cells ->
                    forall n, In n cells -> is_valid_loc grid n = true).
  { intros cs H n Hn. apply (open_neighbors_In grid c cs H) in Hn.
    apply passableb_valid; tauto. }
  unfold nxt_cells. destruct (p =? 1); [|apply Hopen].
  unfold get_nxt_cells_p1.
  destruct (grid_at grid c) as [ch|e]; simpl; [|discriminate].
  destruct (is_char ch ">" && _) eqn:E1.
  { apply andb_true_iff in E1. destruct E1 as [_ V].
    intros H n; inversion H; subst. intros [<-|[]]; assumption. }
  destruct (is_char ch "<" && _) eqn:E2.
  { apply andb_true_iff in E2. destruct E2 as [_ V].
    intros H n; inversion H; subst. intros [<-|[]]; assumption. }
  destruct (is_char ch "^" && _) eqn:E3.
  { apply andb_true_iff in E3. destruct E3 as [_ V].
    intros H n; inversion H; subst. intros [<-|[]]; assumption. }
  destruct (is_char ch "v" && _) eqn:E4.
  { apply andb_true_iff in E4. destruct E4 as [_ V].
    intros H n; inversion H; subst. intros [<-|[]]; assumption. }
  apply Hopen.
Qed.

Section Walk.

Variable grid : Grid.
Variable points : list cell.
Variable p : Z.
Variable src : cell.

(** a walk that returns keeps the graph invariant *)
Lemma walk_inv (fuel : nat) :
  forall stack seen g g',
    graph_inv points g -> In src seen -> stack_inv src stack ->
    walk fuel grid points p src stack seen g = Ok g' ->
    graph_inv points g'.
Proof.
  induction fuel as [|fuel IH]; intros stack seen g g' Hg Hsrc Hst;
    destruct stack as [|[steps n] stack']; simpl;
    try (intros H; inversion H; subst; assumption); try discriminate.
  destruct (negb (steps =? 0) && cell_in n points) eqn:E.
  - apply andb_true_iff in E. destruct E as [E1 E2].
    apply negb_true_iff, Z.eqb_neq in E1. apply cell_in_In in E2.
    destruct (add_edge g src n steps) as [g1|e] eqn:Ha; simpl; [|discriminate].
    apply IH; [|assumption|].
    + eapply add_edge_inv; try eassumption.
      apply (Hst steps n); [left; reflexivity | assumption].
    + intros s m Hin. apply Hst. right; assumption.
  - destruct (nxt_cells grid p n) as [cells|e]; simpl; [|discriminate].
    destruct (push_unseen steps cells (stack', seen)) as [stack'' seen'] eqn:Hp.
    apply push_unseen_spec in Hp. destruct Hp as [Hp1 Hp2].
    apply IH; [assumption | apply Hp2; assumption |].
    intros s m Hin. destruct (Hp1 s m Hin) as [Hold|[-> [_ Hns]]].
    + apply Hst. right; assumption.
    + destruct (Hst steps n) as [H0 _]; [left; reflexivity|].
      split; [lia|]. intros _ ->. contradiction.
Qed.

Lemma In_all_cells (c : cell) :
  In c (all_cells grid) <-> is_valid_loc grid c = true.
Proof.
  destruct c as [x y]. unfold all_cells. rewrite is_valid_loc_range.
  split; intros H; [apply in_prod_iff in H | apply in_prod_iff]; exact H.
Qed.

Lemma length_all_cells :
  List.length (all_cells grid) = Z.to_nat (len grid * width grid).
Proof.
  unfold all_cells, range, cell.
  rewrite length_prod, !List.length_map, !length_seq.
  pose proof (len_nonneg grid). rewrite Z2Nat.inj_mul; [reflexivity | lia |].
  unfold width. destruct grid; [lia | apply len_nonneg].
Qed.

Lemma filter_length_lt {A : Type} (f g : A -> bool) (l : list A) (a : A) :
  In a l -> f a = true -> g a = false ->
  (forall x, g x = true -> f x = true) ->
  (List.length (filter g l) < List.length (filter f l))%nat.
Proof.
  intros Ha Hf Hg Hfg.
  assert (Hle : forall l', (List.length (filter g l') <=
                            List.length (filter f l'))%nat).
  { induction l' as [|x l' IH]; simpl; [lia|].
    destruct (g x) eqn:Eg.
    - rewrite (Hfg x Eg). simpl. lia.
    - destruct (f x); simpl; lia. }
  induction l as [|x l IH]; [destruct Ha|]. simpl.
  destruct Ha as [->|Ha].
  - rewrite Hf, Hg. simpl. specialize (Hle l). lia.
  - specialize (IH Ha). destruct (g x) eqn:Eg.
    + rewrite (Hfg x Eg). simpl. lia.
    + destruct (f x); simpl; lia.
Qed.

Lemma unseen_add_lt (n : cell) (seen : list cell) :
  is_valid_loc grid n = true -> ~ In n seen ->
  (List.length (unseen grid (n :: seen)) < List.length (unseen grid seen))%nat.
Proof.
  intros Hv Hn. unfold unseen.
  apply filter_length_lt with (a := n).
  - apply In_all_cells; assumption.
  - apply negb_true_iff, cell_in_not_In; assumption.
  - apply negb_false_iff, cell_in_In. left; reflexivity.
  - intros x Hx. apply negb_true_iff in Hx. apply negb_true_iff.
    apply cell_in_not_In. apply cell_in_not_In in Hx.
    intros H; apply Hx; right; assumption.
Qed.

Lemma push_unseen_measure (steps : Z) (cells : list cell) :
  (forall n, In n cells -> is_valid_loc grid n = true) ->
  forall stack seen stack' seen',
    push_unseen steps cells (stack, seen) = (stack', seen') ->
    (List.length stack' + List.length (unseen grid seen') <=
     List.length stack + List.length (unseen grid seen))%nat /\
    (forall s n, In (s, n) stack' ->
                 In (s, n) stack \/ is_valid_loc grid n = true).
Proof.
  unfold push_unseen.
  induction cells as [|c cells IH]; intros Hv stack seen stack' seen'; simpl.
  - intros H; inversion H; subst. split; [lia | auto].
  - assert (Hv' : forall n, In n cells -> is_valid_loc grid n = true)
      by (intros; apply Hv; right; assumption).
    destruct (cell_in c seen) eqn:E.
    + apply IH; assumption.
    + apply cell_in_not_In in E. rewrite set_add_fresh by assumption.
      intros H. apply (IH Hv') in H. destruct H as [H1 H2].
      pose proof (unseen_add_lt c seen (Hv c (or_introl eq_refl)) E).
      split; [simpl in H1; lia|].
      intros s n Hin. destruct (H2 s n Hin) as [[Heq|?]|?]; auto.
      inversion Heq; subst. right. apply Hv. left; reflexivity.
Qed.

Lemma open_neighbors_total (c : cell) (dirs : list (Z * Z)) :
  rectangular grid -> exists cells, open_neighbors grid c dirs = Ok cells.
Proof.
  intros Hr. unfold open_neighbors.
  assert (H : forall acc, exists cells,
    for_each dirs
      (fun d res =>
         let n := shift c d in
         if is_valid_loc grid n
         then ch <- grid_at grid n ;;
              Ok (if negb (is_char ch "#") then res ++ [n] else res)
         else Ok res) acc = Ok cells); [|apply H].
  induction dirs as [|d dirs IH]; intros acc; simpl; [eauto|].
  destruct (is_valid_loc grid (shift c d)) eqn:V; simpl; [|apply IH].
  destruct (grid_at_valid grid _ Hr V) as [ch ->]. simpl. apply IH.
Qed.

Lemma nxt_cells_total (c : cell) :
  rectangular grid -> is_valid_loc grid c = true ->
  exists cells, nxt_cells grid p c = Ok cells.
Proof.
  intros Hr Hv. unfold nxt_cells, get_nxt_cells_p1, get_nxt_cells_p2.
  destruct (p =? 1); [|apply open_neighbors_total; assumption].
  destruct (grid_at_valid grid c Hr Hv) as [ch ->]. simpl.
  repeat (match goal with
          | |- context [if ?b then _ else _] => destruct b; [eauto|]
          end).
  apply open_neighbors_total; assumption.
Qed.

(** on a rectangular grid a walk over in-bounds cells returns, given one
    unit of fuel per stacked or unseen cell *)
Lemma walk_total (fuel : nat) :
  rectangular grid ->
  forall stack seen g,
    In src (keys g) ->
    (forall s n, In (s, n) stack -> is_valid_loc grid n = true) ->
    (List.length stack + List.length (unseen grid seen) <= fuel)%nat ->
    exists g', walk fuel grid points p src stack seen g = Ok g'.
Proof.
  intros Hr. induction fuel as [|fuel IH]; intros stack seen g Hsrc Hv Hf;
    destruct stack as [|[steps n] stack']; simpl; eauto;
    [simpl in Hf; lia|].
  assert (Hv' : forall s m, In (s, m) stack' -> is_valid_loc grid m = true)
    by (intros s m Hin; apply (Hv s m); right; assumption).
  destruct (negb (steps =? 0) && cell_in n points).
  - destruct (In_keys_dict_get g src Hsrc) as [adj Hadj].
    unfold add_edge. rewrite Hadj. simpl.
    apply IH; [| assumption | simpl in Hf; lia].
    apply In_keys_dict_set. left; reflexivity.
  - destruct (nxt_cells_total n Hr) as [cells Hc].
    { apply (Hv steps n). left; reflexivity. }
    rewrite Hc. simpl.
    destruct (push_unseen steps cells (stack', seen)) as [stack'' seen'] eqn:Hp.
    apply push_unseen_measure in Hp;
      [|apply (nxt_cells_valid grid p n cells Hc)].
    destruct Hp as [Hm Hin]. apply IH; [assumption | | simpl in Hf; lia].
    intros s m Hsm. destruct (Hin s m Hsm) as [H|H]; [eapply Hv'|]; eassumption.
Qed.

Lemma walk_fuel_enough :
  (List.length [(0, src)] + List.length (unseen grid [src])
   <= walk_fuel grid)%nat.
Proof.
  unfold walk_fuel, unseen. rewrite <- length_all_cells.
  pose proof (filter_length_le (fun c => negb (cell_in c [src]))
                (all_cells grid)).
  cbn [List.length]. lia.
Qed.

End Walk.

Section BuildGraph.

Variable grid : Grid.
Variable points : list cell.
Variable p : Z.

Lemma build_loop_inv (srcs : list cell) :
  incl srcs points ->
  forall g g',
    graph_inv points g ->
    for_each srcs
      (fun src graph =>
         walk (walk_fuel grid) grid points p src [(0, src)] [src] graph) g
    = Ok g' ->
    graph_inv points g'.
Proof.
  induction srcs as [|src srcs IH]; intros Hs g g' Hg; cbn [for_each].
  - intros H; inversion H; subst; assumption.
  - destruct (walk (walk_fuel grid) grid points p src [(0, src)] [src] g)
      as [g1|e] eqn:W; cbn [bind]; [|discriminate].
    apply IH; [intros x Hx; apply Hs; right; assumption|].
    apply (walk_inv grid points p src (walk_fuel grid)
             [(0, src)] [src] g g1 Hg); [left; reflexivity | | exact W].
    intros s n [H|[]]. inversion H; subst. split; [lia | congruence].
Qed.

Lemma build_graph_inv (g : Graph) :
  build_graph grid points p = Ok g -> graph_inv points g.
Proof.
  apply build_loop_inv; [apply incl_refl | apply empty_graph_inv].
Qed.

Lemma build_loop_total (srcs : list cell) :
  rectangular grid ->
  incl srcs points ->
  (forall c, In c srcs -> is_valid_loc grid c = true) ->
  forall g,
    graph_inv points g ->
    exists g',
      for_each srcs
        (fun src graph =>
           walk (walk_fuel grid) grid points p src [(0, src)] [src] graph) g
      = Ok g'.
Proof.
  intros Hr. induction srcs as [|src srcs IH]; intros Hs Hv g Hg;
    cbn [for_each]; [eauto|].
  destruct (walk_total grid points p src (walk_fuel grid) Hr
              [(0, src)] [src] g) as [g1 W].
  - apply Hg. apply Hs. left; reflexivity.
  - intros s n [H|[]]. inversion H; subst. apply Hv. left; reflexivity.
  - apply walk_fuel_enough.
  - rewrite W. cbn [bind]. apply IH.
    + intros x Hx; apply Hs; right; assumption.
    + intros c Hc; apply Hv; right; assumption.
    + apply (walk_inv grid points p src (walk_fuel grid)
               [(0, src)] [src] g g1 Hg); [left; reflexivity | | exact W].
      intros s n [H|[]]. inversion H; subst. split; [lia | congruence].
Qed.

(** on a rectangular grid, with all points inside it, [build_graph]
    returns a graph *)
Lemma build_graph_total :
  rectangular grid ->
  (forall c, In c points -> is_valid_loc grid c = true) ->
  exists g, build_graph grid points p = Ok g.
Proof.
  intros Hr Hv. apply build_loop_total; auto.
  - apply incl_refl.
  - apply empty_graph_inv.
Qed.

End BuildGraph.

Lemma graph_inv_closed (points : list cell) (g : Graph) :
  graph_inv points g -> graph_closed g.
Proof.
  intros [Hk He] a adj b Ha Hb. apply Hk. apply (He a adj b Ha Hb).
Qed.

Lemma graph_inv_no_self_loop (points : list cell) (g : Graph) :
  graph_inv points g -> no_self_loop g.
Proof.
  intros [_ He] a w. unfold weight.
  destruct (dict_get g a) as [adj|e] eqn:Ha; simpl; [|discriminate].
  intros Hw. apply dict_get_In_keys in Hw.
  destruct (He a adj a Ha Hw) as [_ Hne]. congruence.
Qed.

(** C9: a graph returned by [build_graph] has no edge from a node to
    itself, whatever the grid, the points and the part. *)
Theorem build_graph_no_self_loop (grid : Grid) (points : list cell) (p : Z)
    (g : Graph) :
  build_graph grid points p = Ok g -> no_self_loop g.
Proof.
  intros H. apply build_graph_inv in H.
  eapply graph_inv_no_self_loop; eassumption.
Qed.

Lemma build_graph_no_self_loop_witness :
  no_self_loop
    [((0, 2), [((1, 2), 1)]); ((3, 0), [((1, 2), 4)]);
     ((1, 2), [((0, 2), 1); ((3, 0), 4)])].
Proof.
  apply (build_graph_no_self_loop grid_loop [(0, 2); (3, 0); (1, 2)] 2).
  reflexivity.
Defined.

Section SearchSafety.

Variable graph : Graph.
Variable finish : cell.
Hypothesis Hclosed : graph_closed graph.

Lemma dfs_loop_safe
    (rec : cell -> list cell -> result (steps * list cell))
    (c : cell) (vis : list cell) (adj : dict Z) :
  dict_get graph c = Ok adj ->
  (forall nxt, ~ In nxt (c :: vis) -> In nxt (keys adj) ->
     returns_or_overflows (c :: vis) (rec nxt (c :: vis))) ->
  forall ks acc,
    incl ks (keys adj) ->
    returns_or_overflows (c :: vis)
      (for_each ks (dfs_body rec graph c) (acc, c :: vis)).
Proof.
  intros Hadj Hrec. induction ks as [|k ks IH]; intros acc Hks.
  - left. exists acc. reflexivity.
  - assert (Hk : In k (keys adj)) by (apply Hks; left; reflexivity).
    assert (Hks' : incl ks (keys adj))
      by (intros x Hx; apply Hks; right; assumption).
    cbn [for_each]. unfold dfs_body at 1.
    destruct (cell_in k (c :: vis)) eqn:E; cbn [bind].
    + apply IH; assumption.
    + apply cell_in_not_In in E.
      destruct (Hrec k E Hk) as [[r ->]| ->]; cbn [bind];
        [|right; reflexivity].
      unfold weight. rewrite Hadj. cbn [bind].
      destruct (In_keys_dict_get adj k Hk) as [w ->]. cbn [bind].
      destruct (steps_add r w) as [s|e] eqn:Hs; cbn [bind].
      * apply IH; assumption.
      * right. destruct r; simpl in Hs; [|discriminate].
        destruct (float_ok w); [discriminate|]. inversion Hs; reflexivity.
Qed.

Lemma dfs_safe (fuel : nat) :
  forall c vis,
    NoDup vis -> incl vis (keys graph) -> ~ In c vis ->
    c = finish \/ In c (keys graph) ->
    (List.length graph < fuel + List.length vis)%nat ->
    returns_or_overflows vis (dfs fuel graph c finish vis).
Proof.
  induction fuel as [|fuel IH]; intros c vis Hnd Hincl Hc Hkey Hfuel.
  - exfalso. apply NoDup_incl_length in Hincl; [|assumption].
    unfold keys in Hincl. rewrite List.length_map in Hincl. simpl in Hfuel. lia.
  - cbn [dfs]. destruct (cell_eqb c finish) eqn:E.
    + left. eexists; reflexivity.
    + apply cell_eqb_neq in E.
      destruct Hkey as [Hkey|Hkey]; [contradiction|].
      destruct (In_keys_dict_get graph c Hkey) as [adj Hadj].
      rewrite set_add_fresh by assumption. rewrite Hadj. cbn [bind].
      destruct (dfs_loop_safe (fun nxt v => dfs fuel graph nxt finish v)
                  c vis adj Hadj) with (ks := keys adj) (acc := NegInf)
        as [[acc ->]| ->].
      * intros nxt Hn Hin. apply IH.
        -- constructor; assumption.
        -- intros x [<-|Hx]; [assumption | apply Hincl; assumption].
        -- assumption.
        -- right. eapply Hclosed; eassumption.
        -- simpl. lia.
      * apply incl_refl.
      * cbn [bind]. rewrite set_remove_head by assumption. cbn [bind].
        left. eexists; reflexivity.
      * right. reflexivity.
Qed.

Lemma get_max_steps_safe (start : cell) :
  start = finish \/ In start (keys graph) ->
  (exists r, get_max_steps graph start finish = Ok r) \/
  get_max_steps graph start finish = Raise OverflowError.
Proof.
  intros Hs. unfold get_max_steps, dfs_fuel.
  destruct (dfs_safe (S (List.length graph)) start []) as [[r ->]| ->]; auto.
  - constructor.
  - intros x [].
  - simpl; lia.
  - left. exists r. reflexivity.
Qed.

End SearchSafety.

(** C10: in a graph returned by [build_graph] every node an edge leads to
    is a key; hence a search started at one of the points never stops on
    a missing key: it returns, unless a weight is too large for a
    float. *)
Theorem build_graph_closed (grid : Grid) (points : list cell) (p : Z)
    (g : Graph) :
  build_graph grid points p = Ok g ->
  graph_closed g /\
  forall start finish,
    In start points ->
    (exists r, get_max_steps g start finish = Ok r) \/
    get_max_steps g start finish = Raise OverflowError.
Proof.
  intros H. apply build_graph_inv in H.
  pose proof (graph_inv_closed points g H) as Hc.
  split; [assumption|]. intros start finish Hs.
  apply get_max_steps_safe; [assumption|]. right. apply H. assumption.
Qed.

Lemma build_graph_closed_witness :
  graph_closed
    [((0, 2), [((1, 2), 1)]); ((3, 0), [((1, 2), 4)]);
     ((1, 2), [((0, 2), 1); ((3, 0), 4)])] /\
  forall start finish,
    In start [(0, 2); (3, 0); (1, 2)] ->
    (exists r,
       get_max_steps
         [((0, 2), [((1, 2), 1)]); ((3, 0), [((1, 2), 4)]);
          ((1, 2), [((0, 2), 1); ((3, 0), 4)])] start finish = Ok r) \/
    get_max_steps
      [((0, 2), [((1, 2), 1)]); ((3, 0), [((1, 2), 4)]);
       ((1, 2), [((0, 2), 1); ((3, 0), 4)])] start finish
    = Raise OverflowError.
Proof.
  apply (build_graph_closed grid_loop [(0, 2); (3, 0); (1, 2)] 2).
  reflexivity.
Defined.

(** * Longest path *)

Lemma dict_get_In {V : Type} (d : dict V) (k : cell) (v : V) :
  dict_get d k = Ok v -> In (k, v) d.
Proof.
  induction d as [|[k' v'] d IH]; simpl; [discriminate|].
  destruct (cell_eqb k k') eqn:E.
  - apply cell_eqb_eq in E; subst. intros H; inversion H; auto.
  - auto.
Qed.

Lemma graph_closedb_sound (g : Graph) :
  graph_closedb g = true -> graph_closed g.
Proof.
  unfold graph_closedb. rewrite forallb_forall.
  intros H a adj b Ha Hb. apply dict_get_In in Ha.
  specialize (H _ Ha). simpl in H. rewrite forallb_forall in H.
  apply cell_in_In. apply H. assumption.
Qed.

Lemma weights_okb_sound (g : Graph) :
  weights_okb g = true -> weights_ok g.
Proof.
  unfold weights_okb. rewrite forallb_forall.
  intros H a b w. unfold weight.
  destruct (dict_get g a) as [adj|e] eqn:Ha; simpl; [|discriminate].
  intros Hw. apply dict_get_In in Ha, Hw.
  specialize (H _ Ha). simpl in H. rewrite forallb_forall in H.
  apply (H _ Hw).
Qed.

Lemma simple_path_start_key (graph : Graph) (start finish : cell)
    (p : list cell) (m : Z) :
  simple_path graph start finish p m ->
  start = finish \/ In start (keys graph).
Proof.
  intros Hp. destruct (cell_eq_dec start finish) as [E|E]; [left; assumption|].
  right.
  destruct (simple_path_step graph finish start p m E Hp)
    as [b [p' [w [m' [_ [_ [Hw _]]]]]]].
  unfold weight in Hw.
  destruct (dict_get graph start) as [adj|e] eqn:Ha; simpl in Hw;
    [|discriminate].
  eapply dict_get_In_keys; eassumption.
Qed.

Lemma avoiding_nil (p : list cell) : avoiding [] p.
Proof. intros c _ []. Qed.

(** C1: on a graph whose edges lead to nodes of the graph and whose
    weights fit a float, if some simple path leads from [start] to
    [finish], [get_max_steps] returns an integer that is the weight of a
    simple path from [start] to [finish] and that no such path exceeds. *)
Theorem get_max_steps_longest (graph : Graph) (start finish : cell) :
  graph_closed graph -> weights_ok graph ->
  (exists p m, simple_path graph start finish p m) ->
  exists longest,
    get_max_steps graph start finish = Ok (Fin longest) /\
    (exists p, simple_path graph start finish p longest) /\
    (forall p m, simple_path graph start finish p m -> m <= longest).
Proof.
  intros Hc Hw [p [m Hp]].
  destruct (get_max_steps_best graph finish Hc Hw start
              (simple_path_start_key _ _ _ _ _ Hp)) as [r [Hr Hb]].
  destruct r as [|longest]; simpl in Hb.
  - exfalso. exact (Hb p m Hp (avoiding_nil p)).
  - exists longest. split; [assumption|]. destruct Hb as [[q [Hq _]] Hmax].
    split; [exists q; assumption|].
    intros p' m' Hp'. exact (Hmax p' m' Hp' (avoiding_nil p')).
Qed.

Lemma get_max_steps_longest_witness :
  exists longest,
    get_max_steps graph_diamond (0, 0) (3, 3) = Ok (Fin longest) /\
    (exists p, simple_path graph_diamond (0, 0) (3, 3) p longest) /\
    (forall p m, simple_path graph_diamond (0, 0) (3, 3) p m -> m <= longest).
Proof.
  apply (get_max_steps_longest graph_diamond (0, 0) (3, 3)).
  - apply graph_closedb_sound. reflexivity.
  - apply weights_okb_sound. reflexivity.
  - exists [(0, 0); (2, 2); (3, 3)], 3. unfold simple_path.
    split; [reflexivity|]. split; [reflexivity|]. split; [|reflexivity].
    repeat (constructor; [simpl; intuition congruence|]). constructor.
Defined.

(** C2: on such a graph, from a start that is one of its nodes, when no
    simple path leads to [finish] the search returns, and what it returns
    is the value [-inf], which is no integer. *)
Theorem get_max_steps_unreachable (graph : Graph) (start finish : cell) :
  graph_closed graph -> weights_ok graph ->
  In start (keys graph) ->
  (forall p m, ~ simple_path graph start finish p m) ->
  get_max_steps graph start finish = Ok NegInf /\
  forall n, NegInf <> Fin n.
Proof.
  intros Hc Hw Hs Hno.
  destruct (get_max_steps_best graph finish Hc Hw start (or_intror Hs))
    as [r [Hr Hb]].
  split; [|discriminate].
  destruct r as [|m]; [assumption|]. simpl in Hb.
  destruct Hb as [[p [Hp _]] _]. exfalso. exact (Hno p m Hp).
Qed.

Lemma graph_split_no_path (p : list cell) (m : Z) :
  ~ simple_path graph_split (0, 0) (3, 3) p m.
Proof.
  intros [Hh [Hl [Hn Hw]]].
  destruct p as [|a p]; [discriminate|]. inversion Hh; subst a.
  destruct p as [|b p]; [discriminate|].
  change (path_weight graph_split ((0, 0) :: b :: p))
    with (w0 <- (if cell_eqb b (1, 1) then Ok 2 else Raise KeyError) ;;
          m0 <- path_weight graph_split (b :: p) ;; Ok (w0 + m0)) in Hw.
  destruct (cell_eqb b (1, 1)) eqn:E; [|discriminate].
  apply cell_eqb_eq in E; subst b.
  destruct p as [|c p]; [discriminate|].
  change (path_weight graph_split ((1, 1) :: c :: p))
    with (w0 <- (if cell_eqb c (0, 0) then Ok 2 else Raise KeyError) ;;
          m0 <- path_weight graph_split (c :: p) ;; Ok (w0 + m0)) in Hw.
  destruct (cell_eqb c (0, 0)) eqn:E; [|discriminate].
  apply cell_eqb_eq in E; subst c.
  inversion Hn as [|? ? Hnot _]; subst. apply Hnot. right; left; reflexivity.
Qed.

Lemma get_max_steps_unreachable_witness :
  get_max_steps graph_split (0, 0) (3, 3) = Ok NegInf /\
  forall n, NegInf <> Fin n.
Proof.
  apply (get_max_steps_unreachable graph_split (0, 0) (3, 3)).
  - apply graph_closedb_sound. reflexivity.
  - apply weights_okb_sound. reflexivity.
  - simpl. auto.
  - apply graph_split_no_path.
Defined.

(** beyond the range of a float the sum [-inf + weight] cannot be formed:
    the dead end behind the first edge of [graph_huge_weight] stops the
    search although the second edge reaches the finish *)
Lemma get_max_steps_overflow :
  get_max_steps graph_huge_weight (0, 0) (3, 3) = Raise OverflowError.
Proof. vm_compute. reflexivity. Qed.

(** a start that is not a key stops the search at once *)
Lemma get_max_steps_missing_start :
  get_max_steps [] (0, 0) (3, 3) = Raise KeyError.
Proof. reflexivity. Qed.

(** * Where the graph misrepresents the grid *)

(** C5 fails on [grid_two_corridors]: the walk from (1, 1) reaches (3, 5)
    through the corridor of 10 steps and, that node now being seen, does
    not record the corridor of 6 steps; the walk from (3, 5) finds the
    corridor of 6 steps first.  The free-mode graph holds both edges, with
    different weights. *)
Lemma build_graph_free_asymmetric :
  get_start_finish grid_two_corridors = Ok ((0, 1), (6, 5)) /\
  get_option_points grid_two_corridors (0, 1) (6, 5)
  = Ok [(0, 1); (6, 5); (1, 1); (3, 5)] /\
  exists g,
    build_graph grid_two_corridors [(0, 1); (6, 5); (1, 1); (3, 5)] 2 = Ok g /\
    weight g (1, 1) (3, 5) = Ok 10 /\
    weight g (3, 5) (1, 1) = Ok 6.
Proof.
  split; [reflexivity|]. split; [reflexivity|].
  eexists. split; [vm_compute; reflexivity|]. split; reflexivity.
Qed.

(** C6 fails on [grid_marked_corridor]: in part 2 the walk from (1, 1)
    records the corridor of 5 steps and drops the one of 9 steps; in
    part 1 the mark closes the short corridor and the long one is
    recorded.  [driver] reports 11 for part 1 and 7 for part 2. *)
Lemma driver_part1_exceeds_part2 :
  driver grid_marked_corridor = Ok (Fin 11, Fin 7).
Proof. vm_compute. reflexivity. Qed.

(** the same inversion arises from a mark that points at a wall: part 1
    walks through the wall and reaches the finish, part 2 does not *)
Lemma driver_through_wall :
  driver ["#.#"; "#v#"; "###"; "#.#"]%string = Ok (Fin 3, NegInf).
Proof. vm_compute. reflexivity. Qed.

(** * Edge weights *)

Section WalkBound.

Variable grid : Grid.
Variable points : list cell.
Variable p : Z.
Variable src : cell.

Lemma push_unseen_bound (steps : Z) (cells : list cell) :
  (forall n, In n cells -> is_valid_loc grid n = true) ->
  0 <= steps ->
  forall stack seen stack' seen',
    stack_bound grid seen stack ->
    steps + Z.of_nat (List.length (unseen grid seen)) <= cell_count grid ->
    push_unseen steps cells (stack, seen) = (stack', seen') ->
    stack_bound grid seen' stack'.
Proof.
  intros Hv Hs. unfold push_unseen.
  induction cells as [|c cells IH]; intros stack seen stack' seen' Hb Hp; simpl.
  - intros H; inversion H; subst; assumption.
  - assert (Hv' : forall n, In n cells -> is_valid_loc grid n = true)
      by (intros; apply Hv; right; assumption).
    destruct (cell_in c seen) eqn:E.
    + apply (IH Hv'); assumption.
    + apply cell_in_not_In in E. rewrite set_add_fresh by assumption.
      pose proof (unseen_add_lt grid c seen (Hv c (or_introl eq_refl)) E) as Hlt.
      apply (IH Hv'); [|lia].
      intros s n [Heq|Hin].
      * inversion Heq; subst. lia.
      * destruct (Hb s n Hin). lia.
Qed.

Lemma add_edge_bounded (bound : Z) (g g' : Graph) (n : cell) (steps : Z) :
  weights_bounded bound g -> 1 <= steps <= bound ->
  add_edge g src n steps = Ok g' -> weights_bounded bound g'.
Proof.
  intros Hg Hs. unfold add_edge.
  destruct (dict_get g src) as [adj|e] eqn:Hsrc; simpl; [|discriminate].
  intros H; inversion H; subst g'; clear H.
  intros a b w. unfold weight. rewrite dict_get_dict_set.
  destruct (cell_eqb a src) eqn:E; simpl.
  - apply cell_eqb_eq in E; subst a. rewrite dict_get_dict_set.
    destruct (cell_eqb b n).
    + intros H; inversion H; subst; assumption.
    + intros H. apply (Hg src b w). unfold weight. rewrite Hsrc. assumption.
  - apply Hg.
Qed.

Lemma walk_bounded (fuel : nat) :
  forall stack seen g g',
    weights_bounded (cell_count grid) g ->
    stack_bound grid seen stack ->
    walk fuel grid points p src stack seen g = Ok g' ->
    weights_bounded (cell_count grid) g'.
Proof.
  induction fuel as [|fuel IH]; intros stack seen g g' Hg Hst;
    destruct stack as [|[steps n] stack']; simpl;
    try (intros H; inversion H; subst; assumption); try discriminate.
  destruct (Hst steps n (or_introl eq_refl)) as [H0 Hle].
  assert (Hst' : stack_bound grid seen stack')
    by (intros s m Hin; apply (Hst s m); right; assumption).
  destruct (negb (steps =? 0) && cell_in n points) eqn:E.
  - apply andb_true_iff in E. destruct E as [E1 _].
    apply negb_true_iff, Z.eqb_neq in E1.
    destruct (add_edge g src n steps) as [g1|e] eqn:Ha; simpl; [|discriminate].
    apply IH; [|assumption].
    apply (add_edge_bounded (cell_count grid) g g1 n steps Hg);
      [lia | exact Ha].
  - destruct (nxt_cells grid p n) as [cells|e] eqn:Hc; simpl; [|discriminate].
    destruct (push_unseen steps cells (stack', seen)) as [stack'' seen'] eqn:Hp.
    apply IH; [assumption|].
    apply (push_unseen_bound steps cells
             (nxt_cells_valid grid p n cells Hc) H0
             stack' seen stack'' seen' Hst' Hle Hp).
Qed.

End WalkBound.

Lemma cell_count_eq (grid : Grid) : cell_count grid = len grid * width grid.
Proof.
  unfold cell_count. rewrite length_all_cells.
  pose proof (len_nonneg grid).
  assert (0 <= width grid)
    by (unfold width; destruct grid; [lia | apply len_nonneg]).
  rewrite Z2Nat.id; [reflexivity | lia].
Qed.

Lemma build_loop_bounded (grid : Grid) (points : list cell) (p : Z)
    (srcs : list cell) :
  forall g g',
    weights_bounded (cell_count grid) g ->
    for_each srcs
      (fun src graph =>
         walk (walk_fuel grid) grid points p src [(0, src)] [src] graph) g
    = Ok g' ->
    weights_bounded (cell_count grid) g'.
Proof.
  induction srcs as [|src srcs IH]; intros g g' Hg; cbn [for_each].
  - intros H; inversion H; subst; assumption.
  - destruct (walk (walk_fuel grid) grid points p src [(0, src)] [src] g)
      as [g1|e] eqn:W; cbn [bind]; [|discriminate].
    apply IH.
    apply (walk_bounded grid points p src (walk_fuel grid)
             [(0, src)] [src] g g1 Hg); [|exact W].
    intros s n [H|[]]. injection H as Hs Hn. subst s. split; [lia|].
    unfold cell_count, unseen.
    pose proof (filter_length_le (fun c => negb (cell_in c [src]))
                  (all_cells grid)). lia.
Qed.

(** the weights of a graph returned by [build_graph] are step counts
    between 1 and the number of cells of the grid *)
Lemma build_graph_weights (grid : Grid) (points : list cell) (p : Z)
    (g : Graph) :
  build_graph grid points p = Ok g ->
  weights_bounded (len grid * width grid) g.
Proof.
  rewrite <- cell_count_eq. apply build_loop_bounded.
  intros a b w Hw. exfalso. unfold weight in Hw.
  destruct (dict_get (empty_graph points) a) as [adj|e] eqn:Ha; simpl in Hw;
    [|discriminate].
  destruct (empty_graph_acc points []) as [_ Hv]; [discriminate|].
  apply Hv in Ha. subst adj. discriminate.
Qed.

Lemma weights_bounded_ok (bound : Z) (g : Graph) :
  weights_bounded bound g -> bound < 2 ^ 1024 - 2 ^ 970 -> weights_ok g.
Proof.
  intros Hb Hlt a b w Hw. apply Hb in Hw.
  unfold float_ok. apply Z.ltb_lt.
  remember (2 ^ 1024 - 2 ^ 970) as limit. lia.
Qed.

(** on a grid of fewer than [2**1024 - 2**970] cells the search over a
    graph built from it, started at one of the points, returns the best
    weight of a simple path to [finish], or [-inf] *)
Lemma build_graph_search_returns (grid : Grid) (points : list cell) (p : Z)
    (g : Graph) (start finish : cell) :
  build_graph grid points p = Ok g ->
  len grid * width grid < 2 ^ 1024 - 2 ^ 970 ->
  In start points ->
  exists r, get_max_steps g start finish = Ok r /\ best g finish [] start r.
Proof.
  intros Hg Hsize Hs.
  pose proof (build_graph_inv grid points p g Hg) as Hinv.
  apply get_max_steps_best.
  - eapply graph_inv_closed; eassumption.
  - eapply weights_bounded_ok; [|exact Hsize].
    eapply build_graph_weights; eassumption.
  - right. apply Hinv. assumption.
Qed.

Lemma endpoint_col_lt (row : list ascii) (y : Z) :
  endpoint_col row y -> 0 < len row -> 0 <= y < len row.
Proof.
  intros [[[H0 Hn] _]|[_ ->]] Hlen; [|lia].
  split; [assumption|].
  assert (Hsome : nth_error row (Z.to_nat y) <> None) by congruence.
  apply nth_error_Some in Hsome. unfold len. lia.
Qed.

Lemma rectangular_last (grid : Grid) :
  rectangular grid -> grid <> [] ->
  len (row_chars (last grid ""%string)) = width grid.
Proof.
  intros Hr Hne. unfold rectangular in Hr. rewrite Forall_forall in Hr.
  apply Hr. apply last_In. assumption.
Qed.

Lemma get_start_finish_endpoints (grid : Grid) :
  grid <> [] ->
  exists sy fy,
    get_start_finish grid = Ok ((0, sy), (len grid - 1, fy)) /\
    endpoint_col (row_chars (hd ""%string grid)) sy /\
    endpoint_col (row_chars (last grid ""%string)) fy.
Proof.
  intros Hg. exists (first_open (row_chars (hd ""%string grid))).
  exists (first_open (row_chars (last grid ""%string))).
  unfold get_start_finish.
  rewrite (py_getitem_first grid ""%string Hg).
  rewrite (py_getitem_last grid ""%string Hg).
  split; [reflexivity|]. split; apply first_open_spec.
Qed.

(** the whole pipeline returns two results on a rectangular grid with at
    least one line and one column, short of [2**1024 - 2**970] cells *)
Lemma driver_total (lines : Grid) :
  rectangular lines -> lines <> [] -> 0 < width lines ->
  len lines * width lines < 2 ^ 1024 - 2 ^ 970 ->
  exists p1 p2, driver lines = Ok (p1, p2).
Proof.
  intros Hr Hne Hw Hsize. unfold driver.
  destruct (get_start_finish_endpoints lines Hne) as [sy [fy [-> [Hsy Hfy]]]].
  cbn [bind].
  assert (Hlen : 0 < len lines).
  { destruct lines; [congruence|]. rewrite len_cons.
    pose proof (len_nonneg lines). lia. }
  assert (Hstart : is_valid_loc lines (0, sy) = true).
  { apply endpoint_col_lt in Hsy.
    - unfold is_valid_loc. cbn [fst snd].
      destruct lines as [|row rest]; [congruence|]. simpl hd in Hsy.
      change (width (row :: rest)) with (len (row_chars row)).
      rewrite !andb_true_iff, !Z.leb_le, !Z.ltb_lt. lia.
    - destruct lines as [|row rest]; [congruence|]. exact Hw. }
  assert (Hfinish : is_valid_loc lines (len lines - 1, fy) = true).
  { pose proof (rectangular_last lines Hr Hne) as Hl.
    apply endpoint_col_lt in Hfy; [|lia].
    unfold is_valid_loc. cbn [fst snd].
    rewrite !andb_true_iff, !Z.leb_le, !Z.ltb_lt. lia. }
  destruct (get_option_points_In lines (0, sy) (len lines - 1, fy) Hr)
    as [pts [-> Hpts]].
  cbn [bind].
  assert (Hvalid : forall c, In c pts -> is_valid_loc lines c = true).
  { intros c Hc. apply Hpts in Hc.
    destruct Hc as [->|[->|[Hp _]]]; auto using passableb_valid. }
  destruct (build_graph_total lines pts 1 Hr Hvalid) as [graph1 H1].
  destruct (build_graph_total lines pts 2 Hr Hvalid) as [graph2 H2].
  rewrite H1, H2. cbn [bind].
  assert (Hs : In (0, sy) pts) by (apply Hpts; auto).
  destruct (build_graph_search_returns lines pts 1 graph1 (0, sy)
              (len lines - 1, fy) H1 Hsize Hs) as [p1 [-> _]].
  destruct (build_graph_search_returns lines pts 2 graph2 (0, sy)
              (len lines - 1, fy) H2 Hsize Hs) as [p2 [-> _]].
  cbn [bind]. eauto.
Qed.

(** * The step budgets suffice *)

Lemma dict_get_raises {V : Type} (d : dict V) (k : cell) (e : exn) :
  dict_get d k = Raise e -> e = KeyError.
Proof.
  induction d as [|[k' v'] d IH]; simpl.
  - intros H; inversion H; reflexivity.
  - destruct (cell_eqb k k'); [discriminate | assumption].
Qed.

Lemma py_getitem_raises {A : Type} (l : list A) (i : Z) (e : exn) :
  py_getitem l i = Raise e -> e = IndexError.
Proof.
  unfold py_getitem.
  destruct ((0 <=? _) && _); [destruct (nth_error _ _)|];
    intros H; inversion H; reflexivity.
Qed.

Lemma grid_at_raises (grid : Grid) (c : cell) (e : exn) :
  grid_at grid c = Raise e -> e = IndexError.
Proof.
  unfold grid_at. destruct (py_getitem grid (fst c)) as [row|e'] eqn:E; simpl.
  - apply py_getitem_raises.
  - intros H; inversion H; subst. eapply py_getitem_raises; eassumption.
Qed.

Lemma open_neighbors_raises (grid : Grid) (c : cell) (dirs : list (Z * Z))
    (e : exn) :
  open_neighbors grid c dirs = Raise e -> e = IndexError.
Proof.
  unfold open_neighbors. generalize (@nil cell) at 2.
  induction dirs as [|d dirs IH]; intros acc; simpl; [discriminate|].
  destruct (is_valid_loc grid (shift c d)); simpl; [|apply IH].
  destruct (grid_at grid (shift c d)) as [ch|e'] eqn:E; simpl; [apply IH|].
  intros H; inversion H; subst. eapply grid_at_raises; eassumption.
Qed.

Lemma nxt_cells_raises (grid : Grid) (p : Z) (c : cell) (e : exn) :
  nxt_cells grid p c = Raise e -> e = IndexError.
Proof.
  unfold nxt_cells, get_nxt_cells_p1, get_nxt_cells_p2.
  destruct (p =? 1); [|apply open_neighbors_raises].
  destruct (grid_at grid c) as [ch|e'] eqn:E; simpl.
  - repeat (match goal with
            | |- context [if ?b then _ else _] => destruct b; [discriminate|]
            end).
    apply open_neighbors_raises.
  - intros H; inversion H; subst. eapply grid_at_raises; eassumption.
Qed.

Lemma walk_fuel_suffices (grid : Grid) (points : list cell) (p : Z)
    (src : cell) (fuel : nat) :
  forall stack seen g,
    (List.length stack + List.length (unseen grid seen) <= fuel)%nat ->
    walk fuel grid points p src stack seen g <> Raise OutOfFuel.
Proof.
  induction fuel as [|fuel IH]; intros stack seen g Hf;
    destruct stack as [|[steps n] stack']; simpl; try discriminate;
    [simpl in Hf; lia|].
  destruct (negb (steps =? 0) && cell_in n points).
  - unfold add_edge. destruct (dict_get g src) as [adj|e] eqn:Ha; simpl.
    + apply IH. simpl in Hf; lia.
    + apply dict_get_raises in Ha. subst e. discriminate.
  - destruct (nxt_cells grid p n) as [cells|e] eqn:Hc; simpl.
    + destruct (push_unseen steps cells (stack', seen))
        as [stack'' seen'] eqn:Hp.
      apply (push_unseen_measure grid steps cells
               (nxt_cells_valid grid p n cells Hc)) in Hp.
      apply IH. simpl in Hf; lia.
    + apply nxt_cells_raises in Hc. subst e. discriminate.
Qed.

(** [build_graph] never exhausts the budget of a walk *)
Lemma build_graph_fuel (grid : Grid) (points : list cell) (p : Z) :
  build_graph grid points p <> Raise OutOfFuel.
Proof.
  unfold build_graph.
  assert (H : forall srcs g,
             for_each srcs
               (fun src graph =>
                  walk (walk_fuel grid) grid points p src [(0, src)] [src]
                       graph) g <> Raise OutOfFuel); [|apply H].
  induction srcs as [|src srcs IH]; intros g; cbn [for_each];
    [discriminate|].
  pose proof (walk_fuel_suffices grid points p src (walk_fuel grid)
                [(0, src)] [src] g (walk_fuel_enough grid src)) as Hw.
  destruct (walk (walk_fuel grid) grid points p src [(0, src)] [src] g)
    as [g1|e]; cbn [bind]; [apply IH | congruence].
Qed.

Lemma dfs_loop_fuel
    (rec : cell -> list cell -> result (steps * list cell))
    (graph : Graph) (c : cell) (vis : list cell) :
  (forall nxt, ~ In nxt vis ->
     rec nxt vis <> Raise OutOfFuel /\
     forall r v, rec nxt vis = Ok (r, v) -> v = vis) ->
  forall ks acc,
    for_each ks (dfs_body rec graph c) (acc, vis) <> Raise OutOfFuel.
Proof.
  intros Hrec. induction ks as [|k ks IH]; intros acc; cbn [for_each];
    [discriminate|].
  unfold dfs_body at 1. destruct (cell_in k vis) eqn:E; cbn [bind];
    [apply IH|].
  apply cell_in_not_In in E. destruct (Hrec k E) as [Hne Hv].
  destruct (rec k vis) as [[r v]|e]; cbn [bind]; [|congruence].
  rewrite (Hv r v eq_refl).
  unfold weight. destruct (dict_get graph c) as [adj|e] eqn:Ha; cbn [bind].
  - destruct (dict_get adj k) as [w|e] eqn:Hk; cbn [bind].
    + destruct r as [|m]; simpl steps_add.
      * destruct (float_ok w); cbn [bind]; [apply IH | discriminate].
      * cbn [bind]. apply IH.
    + apply dict_get_raises in Hk. subst e. discriminate.
  - apply dict_get_raises in Ha. subst e. discriminate.
Qed.

Lemma dfs_fuel_suffices (graph : Graph) (finish : cell) (fuel : nat) :
  forall c vis,
    NoDup vis -> incl vis (keys graph) -> ~ In c vis ->
    (List.length graph < fuel + List.length vis)%nat ->
    dfs fuel graph c finish vis <> Raise OutOfFuel.
Proof.
  induction fuel as [|fuel IH]; intros c vis Hnd Hincl Hc Hfuel.
  - exfalso. apply NoDup_incl_length in Hincl; [|assumption].
    unfold keys in Hincl. rewrite List.length_map in Hincl. simpl in Hfuel. lia.
  - cbn [dfs]. destruct (cell_eqb c finish); [discriminate|].
    rewrite set_add_fresh by assumption.
    destruct (dict_get graph c) as [adj|e] eqn:Hadj; cbn [bind].
    + pose proof (dfs_loop_fuel (fun nxt v => dfs fuel graph nxt finish v)
                    graph c (c :: vis)) as Hloop.
      assert (Hrec : forall nxt, ~ In nxt (c :: vis) ->
                dfs fuel graph nxt finish (c :: vis) <> Raise OutOfFuel /\
                forall r v, dfs fuel graph nxt finish (c :: vis) = Ok (r, v) ->
                            v = c :: vis).
      { intros nxt Hn. split.
        - apply IH; [constructor; assumption | | assumption | simpl; lia].
          intros x [<-|Hx]; [|apply Hincl; assumption].
          eapply dict_get_In_keys; eassumption.
        - intros r v. apply dfs_restores; assumption. }
      specialize (Hloop Hrec (keys adj) NegInf).
      destruct (for_each (keys adj) _ _) as [[m v]|e] eqn:L; cbn [bind];
        [|congruence].
      destruct (set_remove c v) as [v'|e] eqn:R; cbn [bind]; [discriminate|].
      unfold set_remove in R.
      destruct (cell_in c v); inversion R; subst; discriminate.
    + apply dict_get_raises in Hadj. subst e. discriminate.
Qed.

(** [get_max_steps] never exhausts the budget of the recursion *)
Lemma get_max_steps_fuel (graph : Graph) (start finish : cell) :
  get_max_steps graph start finish <> Raise OutOfFuel.
Proof.
  unfold get_max_steps, dfs_fuel.
  pose proof (dfs_fuel_suffices graph finish (S (List.length graph)) start []
                (NoDup_nil _) (fun x (H : In x []) => match H with end)
                (fun H : In start [] => H)) as Hd.
  destruct (dfs (S (List.length graph)) graph start finish []) as [[r v]|e];
    cbn [bind]; [discriminate|].
  intros H. apply Hd; [simpl; lia|]. congruence.
Qed.

(** * Further properties of the step functions *)

Lemma adjacent_sym (c n : cell) : adjacent c n -> adjacent n c.
Proof.
  intros [d [Hd ->]]. destruct c as [x y]. unfold adjacent, shift, step_dirs.
  simpl in Hd.
  destruct Hd as [<-|[<-|[<-|[<-|[]]]]]; cbn [fst snd].
  - exists (0, -1). split; [simpl; auto|]. cbn [fst snd]. f_equal; lia.
  - exists (0, 1). split; [simpl; auto|]. cbn [fst snd]. f_equal; lia.
  - exists (-1, 0). split; [simpl; auto 6|]. cbn [fst snd]. f_equal; lia.
  - exists (1, 0). split; [simpl; auto 6|]. cbn [fst snd]. f_equal; lia.
Qed.

(** X1: on a rectangular grid [get_nxt_cells_p2] returns for every cell,
    even one outside the grid, and what it returns are exactly the
    orthogonal neighbours that lie inside the grid and are not walls. *)
Theorem get_nxt_cells_p2_neighbors (grid : Grid) (c : cell) :
  rectangular grid ->
  exists cells,
    get_nxt_cells_p2 grid c = Ok cells /\
    forall n, In n cells <-> adjacent c n /\ passableb grid n = true.
Proof.
  intros Hr. unfold get_nxt_cells_p2.
  destruct (open_neighbors_total grid c step_dirs Hr) as [cells H].
  exists cells. split; [assumption|].
  apply open_neighbors_In; assumption.
Qed.

Lemma get_nxt_cells_p2_neighbors_witness :
  exists cells,
    get_nxt_cells_p2 grid_cross (1, 1) = Ok cells /\
    forall n, In n cells <-> adjacent (1, 1) n /\ passableb grid_cross n = true.
Proof.
  apply (get_nxt_cells_p2_neighbors grid_cross (1, 1)).
  repeat constructor.
Defined.

(** X2: a step of part 2 can be taken back: if [n] is a next cell of a
    passable cell [c], then [c] is a next cell of [n]. *)
Theorem free_step_reversible (grid : Grid) (c n : cell)
    (cells cells' : list cell) :
  passableb grid c = true ->
  get_nxt_cells_p2 grid c = Ok cells -> In n cells ->
  get_nxt_cells_p2 grid n = Ok cells' ->
  In c cells'.
Proof.
  intros Hc H Hn H'. unfold get_nxt_cells_p2 in *.
  apply (open_neighbors_In grid c cells H) in Hn. destruct Hn as [Ha _].
  apply (open_neighbors_In grid n cells' H').
  split; [apply adjacent_sym; assumption | assumption].
Qed.

Lemma free_step_reversible_witness : In (1, 1) [(1, 1)].
Proof.
  apply (free_step_reversible grid_cross (1, 1) (1, 2)
           [(1, 2); (1, 0); (2, 1); (0, 1)] [(1, 1)]).
  - reflexivity.
  - reflexivity.
  - simpl; auto.
  - vm_compute. reflexivity.
Defined.

(** the two ways [get_nxt_cells_p1] produces its result *)
Lemma get_nxt_cells_p1_cases (grid : Grid) (c : cell) (ch : ascii)
    (cells : list cell) :
  grid_at grid c = Ok ch ->
  get_nxt_cells_p1 grid c = Ok cells ->
  (exists d, forced_dir ch = Some d /\ In d step_dirs /\
             is_valid_loc grid (shift c d) = true /\ cells = [shift c d]) \/
  open_neighbors grid c step_dirs = Ok cells.
Proof.
  intros Hch. unfold get_nxt_cells_p1. rewrite Hch. simpl bind.
  destruct c as [x y]. cbn [fst snd].
  replace (x, y + 1) with (shift (x, y) (0, 1))
    by (unfold shift; cbn [fst snd]; f_equal; lia).
  replace (x, y - 1) with (shift (x, y) (0, -1))
    by (unfold shift; cbn [fst snd]; f_equal; lia).
  replace (x - 1, y) with (shift (x, y) (-1, 0))
    by (unfold shift; cbn [fst snd]; f_equal; lia).
  replace (x + 1, y) with (shift (x, y) (1, 0))
    by (unfold shift; cbn [fst snd]; f_equal; lia).
  unfold forced_dir.
  destruct (is_char ch ">") eqn:E1; cbn [andb].
  { destruct (is_valid_loc grid (shift (x, y) (0, 1))) eqn:V.
    - intros H; inversion H. left. exists (0, 1). simpl; auto.
    - apply Ascii.eqb_eq in E1; subst ch.
      change (is_char ">" "<") with false. change (is_char ">" "^") with false.
      change (is_char ">" "v") with false. cbn [andb]. auto. }
  destruct (is_char ch "<") eqn:E2; cbn [andb].
  { destruct (is_valid_loc grid (shift (x, y) (0, -1))) eqn:V.
    - intros H; inversion H. left. exists (0, -1). simpl; auto.
    - apply Ascii.eqb_eq in E2; subst ch.
      change (is_char "<" "^") with false.
      change (is_char "<" "v") with false. cbn [andb]. auto. }
  destruct (is_char ch "^") eqn:E3; cbn [andb].
  { destruct (is_valid_loc grid (shift (x, y) (-1, 0))) eqn:V.
    - intros H; inversion H. left. exists (-1, 0). simpl; auto 7.
    - apply Ascii.eqb_eq in E3; subst ch.
      change (is_char "^" "v") with false. cbn [andb]. auto. }
  destruct (is_char ch "v") eqn:E4; cbn [andb].
  { destruct (is_valid_loc grid (shift (x, y) (1, 0))) eqn:V.
    - intros H; inversion H. left. exists (1, 0). simpl; auto 7.
    - auto. }
  auto.
Qed.

(** X3: at a cell whose mark, if it has one, does not point at a wall,
    every next cell of part 1 is also a next cell of part 2. *)
Theorem constrained_steps_subset (grid : Grid) (c : cell) (ch : ascii)
    (cells1 cells2 : list cell) :
  grid_at grid c = Ok ch ->
  (forall d, forced_dir ch = Some d ->
             is_valid_loc grid (shift c d) = true ->
             passableb grid (shift c d) = true) ->
  get_nxt_cells_p1 grid c = Ok cells1 ->
  get_nxt_cells_p2 grid c = Ok cells2 ->
  incl cells1 cells2.
Proof.
  intros Hch Hmark H1 H2.
  destruct (get_nxt_cells_p1_cases grid c ch cells1 Hch H1)
    as [[d [Hd [Hin [Hv ->]]]]|Hopen].
  - intros n [<-|[]]. apply (open_neighbors_In grid c cells2 H2).
    split; [exists d; auto | apply Hmark; assumption].
  - unfold get_nxt_cells_p2 in H2. rewrite Hopen in H2.
    inversion H2. apply incl_refl.
Qed.

Lemma constrained_steps_subset_witness :
  incl [(0, 2)] [(0, 2); (0, 0)].
Proof.
  apply (constrained_steps_subset [".>."]%string (0, 1) ">"
           [(0, 2)] [(0, 2); (0, 0)]).
  - reflexivity.
  - intros d Hd _. inversion Hd; subst. reflexivity.
  - reflexivity.
  - reflexivity.
Defined.

(** * Endpoints on the empty grid *)

(** X4: [get_start_finish] raises [IndexError] on the empty grid and on
    no other grid. *)
Theorem get_start_finish_empty (grid : Grid) :
  get_start_finish grid = Raise IndexError <-> grid = [].
Proof.
  split.
  - intros H. destruct grid as [|row rest]; [reflexivity|]. exfalso.
    destruct (get_start_finish_endpoints (row :: rest)) as [sy [fy [E _]]];
      [discriminate|].
    rewrite E in H. discriminate.
  - intros ->. reflexivity.
Qed.

(** * The list of points *)

Lemma NoDup_map_inj {A B : Type} (f : A -> B) (l : list A) :
  (forall x y, f x = f y -> x = y) -> NoDup l -> NoDup (map f l).
Proof.
  intros Hf. induction 1 as [|a l Hn Hd IH]; simpl; constructor; auto.
  intros Hin. apply in_map_iff in Hin. destruct Hin as [x [Hx Hin]].
  apply Hf in Hx. subst x. contradiction.
Qed.

Lemma NoDup_range (n : Z) : NoDup (range n).
Proof.
  unfold range. apply NoDup_map_inj; [intros x y; lia | apply seq_NoDup].
Qed.

Lemma NoDup_flat_map_rows (h : Z -> list cell) (xs : list Z) :
  NoDup xs -> (forall x, NoDup (h x)) ->
  (forall x c, In c (h x) -> fst c = x) ->
  NoDup (flat_map h xs).
Proof.
  intros Hxs Hh Hrow. induction Hxs as [|x xs Hn Hd IH]; simpl.
  - constructor.
  - apply NoDup_app; [apply Hh | assumption |].
    intros c Hc Hin. apply in_flat_map in Hin. destruct Hin as [x' [Hx' Hc']].
    apply Hrow in Hc, Hc'. subst. contradiction.
Qed.

(** X5: on a rectangular grid the list returned by [get_option_points] is
    [start], then [finish], then every passable cell with three or more
    passable neighbours, each listed once (an endpoint that is such a cell
    is therefore listed a second time). *)
Theorem get_option_points_layout (grid : Grid) (start finish : cell) :
  rectangular grid ->
  exists junctions,
    get_option_points grid start finish = Ok (start :: finish :: junctions) /\
    NoDup junctions /\
    forall c, In c junctions <->
              passableb grid c = true /\ 3 <= degree grid c.
Proof.
  intros Hr. unfold get_option_points.
  rewrite (for_each_append_all (range (len grid))
             (fun x => map (fun y => (x, y))
                         (filter (fun y => junctionb grid (x, y))
                                 (range (width grid))))).
  - eexists. split; [reflexivity|]. split.
    + apply NoDup_flat_map_rows.
      * apply NoDup_range.
      * intros x. apply NoDup_map_inj; [congruence|].
        apply NoDup_filter, NoDup_range.
      * intros x c Hc. apply in_map_iff in Hc.
        destruct Hc as [y [<- _]]. reflexivity.
    + intros c. rewrite in_flat_map. split.
      * intros [x [Hx Hc]]. apply in_map_iff in Hc.
        destruct Hc as [y [<- Hy]]. apply filter_In in Hy.
        destruct Hy as [_ Hj]. unfold junctionb in Hj.
        apply andb_true_iff in Hj. rewrite <- Z.leb_le. assumption.
      * intros [Hp Hd]. destruct c as [x y].
        pose proof (passableb_valid _ _ Hp) as Hv.
        apply is_valid_loc_range in Hv. destruct Hv as [Hx Hy].
        exists x; split; [assumption|].
        apply in_map_iff. exists y; split; [reflexivity|].
        apply filter_In; split; [assumption|].
        unfold junctionb. rewrite Hp. apply Z.leb_le in Hd. rewrite Hd.
        reflexivity.
  - intros x pts Hx.
    apply (for_each_append_if (range (width grid))
             (fun y => junctionb grid (x, y)) (fun y => (x, y))).
    intros y pts' Hy. apply option_point_step_spec; [assumption|].
    apply is_valid_loc_range; split; assumption.
Qed.

Lemma get_option_points_layout_witness :
  exists junctions,
    get_option_points grid_cross (1, 1) (2, 1)
    = Ok ((1, 1) :: (2, 1) :: junctions) /\
    NoDup junctions /\
    forall c, In c junctions <->
              passableb grid_cross c = true /\ 3 <= degree grid_cross c.
Proof.
  apply (get_option_points_layout grid_cross (1, 1) (2, 1)).
  repeat constructor.
Defined.

(** * Keys and errors of the graph construction *)

Lemma keys_dict_set_present {V : Type} (d : dict V) (k : cell) (v : V) :
  In k (keys d) -> keys (dict_set d k v) = keys d.
Proof.
  induction d as [|[k' v'] d IH]; simpl; [tauto|].
  intros H. destruct (cell_eqb k k') eqn:E; simpl; [reflexivity|].
  apply cell_eqb_neq in E. f_equal. apply IH.
  destruct H as [H|H]; [congruence | assumption].
Qed.

Lemma keys_dict_set_absent {V : Type} (d : dict V) (k : cell) (v : V) :
  ~ In k (keys d) -> keys (dict_set d k v) = keys d ++ [k].
Proof.
  induction d as [|[k' v'] d IH]; simpl; [reflexivity|].
  intros H. destruct (cell_eqb k k') eqn:E; simpl.
  - apply cell_eqb_eq in E. subst. tauto.
  - f_equal. apply IH. tauto.
Qed.

Lemma NoDup_keys_dict_set {V : Type} (d : dict V) (k : cell) (v : V) :
  NoDup (keys d) -> NoDup (keys (dict_set d k v)).
Proof.
  intros Hd. destruct (in_dec cell_eq_dec k (keys d)) as [H|H].
  - rewrite keys_dict_set_present; assumption.
  - rewrite keys_dict_set_absent by assumption.
    apply NoDup_app; [assumption | constructor; [intros [] | constructor] |].
    intros a Ha [<-|[]]. contradiction.
Qed.

Lemma NoDup_keys_empty_graph (points : list cell) :
  NoDup (keys (empty_graph points)).
Proof.
  unfold empty_graph.
  assert (H : forall g : Graph, NoDup (keys g) ->
            NoDup (keys (fold_left (fun g pt => dict_set g pt []) points g))).
  { induction points as [|pt pts IH]; intros g Hg; simpl; [assumption|].
    apply IH. apply NoDup_keys_dict_set. assumption. }
  apply H. constructor.
Qed.

Lemma add_edge_keys (g g' : Graph) (src n : cell) (steps : Z) :
  add_edge g src n steps = Ok g' -> keys g' = keys g.
Proof.
  unfold add_edge.
  destruct (dict_get g src) as [adj|e] eqn:Hsrc; simpl; [|discriminate].
  intros H; inversion H. apply keys_dict_set_present.
  eapply dict_get_In_keys; eassumption.
Qed.

Lemma walk_keys (grid : Grid) (points : list cell) (p : Z) (src : cell)
    (fuel : nat) :
  forall stack seen g g',
    walk fuel grid points p src stack seen g = Ok g' -> keys g' = keys g.
Proof.
  induction fuel as [|fuel IH]; intros stack seen g g';
    destruct stack as [|[steps n] stack']; simpl;
    try (intros H; inversion H; reflexivity); try discriminate.
  destruct (negb (steps =? 0) && cell_in n points).
  - destruct (add_edge g src n steps) as [g1|e] eqn:Ha; simpl; [|discriminate].
    intros H. apply IH in H. rewrite H. eapply add_edge_keys; eassumption.
  - destruct (nxt_cells grid p n) as [cells|e]; simpl; [|discriminate].
    destruct (push_unseen steps cells (stack', seen)) as [stack'' seen'].
    apply IH.
Qed.

Lemma build_loop_keys (grid : Grid) (points : list cell) (p : Z)
    (srcs : list cell) :
  forall g g',
    for_each srcs
      (fun src graph =>
         walk (walk_fuel grid) grid points p src [(0, src)] [src] graph) g
    = Ok g' ->
    keys g' = keys g.
Proof.
  induction srcs as [|src srcs IH]; intros g g'; cbn [for_each].
  - intros H; inversion H; reflexivity.
  - destruct (walk (walk_fuel grid) grid points p src [(0, src)] [src] g)
      as [g1|e] eqn:W; cbn [bind]; [|discriminate].
    intros H. apply IH in H. rewrite H. eapply walk_keys; eassumption.
Qed.

(** X6: the keys of a graph returned by [build_graph] are the points and
    nothing else, each point being a key once however often it occurs in
    the list. *)
Theorem build_graph_keys (grid : Grid) (points : list cell) (p : Z)
    (g : Graph) :
  build_graph grid points p = Ok g ->
  NoDup (keys g) /\ forall c, In c (keys g) <-> In c points.
Proof.
  intros H. split.
  - apply build_loop_keys in H. rewrite H. apply NoDup_keys_empty_graph.
  - apply build_graph_inv in H. apply H.
Qed.

Lemma build_graph_keys_witness :
  NoDup (keys [((0, 2), [((1, 2), 1)]); ((3, 0), [((1, 2), 4)]);
               ((1, 2), [((0, 2), 1); ((3, 0), 4)])]) /\
  forall c,
    In c (keys [((0, 2), [((1, 2), 1)]); ((3, 0), [((1, 2), 4)]);
                ((1, 2), [((0, 2), 1); ((3, 0), 4)])]) <->
    In c [(0, 2); (3, 0); (1, 2); (0, 2)].
Proof.
  apply (build_graph_keys grid_loop [(0, 2); (3, 0); (1, 2); (0, 2)] 2).
  vm_compute. reflexivity.
Defined.

Lemma walk_raises (grid : Grid) (points : list cell) (p : Z) (src : cell)
    (fuel : nat) :
  forall stack seen g e,
    In src (keys g) ->
    (List.length stack + List.length (unseen grid seen) <= fuel)%nat ->
    walk fuel grid points p src stack seen g = Raise e ->
    e = IndexError.
Proof.
  induction fuel as [|fuel IH]; intros stack seen g e Hsrc Hf;
    destruct stack as [|[steps n] stack']; simpl; try discriminate;
    [simpl in Hf; lia|].
  destruct (negb (steps =? 0) && cell_in n points).
  - destruct (In_keys_dict_get g src Hsrc) as [adj Hadj].
    unfold add_edge. rewrite Hadj. simpl.
    apply IH; [|simpl in Hf; lia].
    apply In_keys_dict_set. left; reflexivity.
  - destruct (nxt_cells grid p n) as [cells|e'] eqn:Hc; simpl.
    + destruct (push_unseen steps cells (stack', seen))
        as [stack'' seen'] eqn:Hp.
      apply (push_unseen_measure grid steps cells
               (nxt_cells_valid grid p n cells Hc)) in Hp.
      apply IH; [assumption | simpl in Hf; lia].
    + intros H; inversion H; subst. eapply nxt_cells_raises; eassumption.
Qed.

(** X9: the only exception [build_graph] can raise is [IndexError] (a
    line shorter than the first one, or in part 1 a point that is no
    index of the grid); no key is ever missing. *)
Theorem build_graph_raises (grid : Grid) (points : list cell) (p : Z)
    (e : exn) :
  build_graph grid points p = Raise e -> e = IndexError.
Proof.
  unfold build_graph.
  assert (H : forall srcs g,
             incl srcs points -> graph_inv points g ->
             for_each srcs
               (fun src graph =>
                  walk (walk_fuel grid) grid points p src [(0, src)] [src]
                       graph) g = Raise e -> e = IndexError).
  { induction srcs as [|src srcs IH]; intros g Hs Hg; cbn [for_each];
      [discriminate|].
    assert (Hsrc : In src (keys g))
      by (apply Hg; apply Hs; left; reflexivity).
    destruct (walk (walk_fuel grid) grid points p src [(0, src)] [src] g)
      as [g1|e'] eqn:W; cbn [bind].
    - apply IH; [intros x Hx; apply Hs; right; assumption|].
      apply (walk_inv grid points p src (walk_fuel grid)
               [(0, src)] [src] g g1 Hg); [left; reflexivity | | exact W].
      intros s n [Hsn|[]]. inversion Hsn; subst. split; [lia | congruence].
    - intros He; inversion He; subst e'.
      apply (walk_raises grid points p src (walk_fuel grid)
               [(0, src)] [src] g e Hsrc (walk_fuel_enough grid src) W). }
  apply H; [apply incl_refl | apply empty_graph_inv].
Qed.

Lemma build_graph_raises_witness : IndexError = IndexError.
Proof.
  apply (build_graph_raises ["##"; "."]%string [(1, 0)] 2 IndexError).
  reflexivity.
Defined.

(** * Edges and corridors *)

Lemma add_edge_weight (g g' : Graph) (src n : cell) (steps : Z) (a b : cell)
    (w : Z) :
  add_edge g src n steps = Ok g' ->
  weight g' a b = Ok w ->
  (a = src /\ b = n /\ w = steps) \/ weight g a b = Ok w.
Proof.
  unfold add_edge.
  destruct (dict_get g src) as [adj|e] eqn:Hsrc; simpl; [|discriminate].
  intros H; inversion H; subst g'; clear H.
  unfold weight. rewrite dict_get_dict_set.
  destruct (cell_eqb a src) eqn:E; simpl; [|auto].
  apply cell_eqb_eq in E; subst a. rewrite dict_get_dict_set, Hsrc. simpl.
  destruct (cell_eqb b n) eqn:E'; [|auto].
  apply cell_eqb_eq in E'. intros H; inversion H; auto.
Qed.

Lemma add_edge_has_edge (g g' : Graph) (src n : cell) (steps : Z) :
  add_edge g src n steps = Ok g' ->
  has_edge g' src n /\ forall a b, has_edge g a b -> has_edge g' a b.
Proof.
  unfold add_edge, has_edge.
  destruct (dict_get g src) as [adj|e] eqn:Hsrc; simpl; [|discriminate].
  intros H; inversion H; subst g'; clear H. unfold weight. split.
  - exists steps. rewrite dict_get_dict_set, cell_eqb_refl. simpl.
    rewrite dict_get_dict_set, cell_eqb_refl. reflexivity.
  - intros a b [w Hw]. rewrite dict_get_dict_set.
    destruct (cell_eqb a src) eqn:E; simpl; [|eauto].
    apply cell_eqb_eq in E; subst a. rewrite Hsrc in Hw. simpl in Hw.
    rewrite dict_get_dict_set. destruct (cell_eqb b n); eauto.
Qed.

Section Corridors.

Variable grid : Grid.
Variable points : list cell.
Variable p : Z.

Lemma walk_sound (src : cell) (fuel : nat) :
  forall stack seen g g',
    edges_sound grid points p g ->
    (forall s n, In (s, n) stack ->
       0 <= s /\ (s = 0 -> n = src) /\
       (s <> 0 -> corridor grid points p src n s)) ->
    walk fuel grid points p src stack seen g = Ok g' ->
    edges_sound grid points p g'.
Proof.
  induction fuel as [|fuel IH]; intros stack seen g g' Hg Hst;
    destruct stack as [|[steps n] stack']; simpl;
    try (intros H; inversion H; subst; assumption); try discriminate.
  destruct (Hst steps n (or_introl eq_refl)) as [H0 [Hz Hnz]].
  assert (Hst' : forall s m, In (s, m) stack' ->
            0 <= s /\ (s = 0 -> m = src) /\
            (s <> 0 -> corridor grid points p src m s))
    by (intros s m Hin; apply (Hst s m); right; assumption).
  destruct (negb (steps =? 0) && cell_in n points) eqn:E.
  - apply andb_true_iff in E. destruct E as [E1 _].
    apply negb_true_iff, Z.eqb_neq in E1.
    destruct (add_edge g src n steps) as [g1|e] eqn:Ha; simpl; [|discriminate].
    apply IH; [|assumption].
    intros a b w Hw.
    destruct (add_edge_weight g g1 src n steps a b w Ha Hw)
      as [[-> [-> ->]]|Hold]; [apply Hnz; assumption | apply Hg; assumption].
  - destruct (nxt_cells grid p n) as [cells|e] eqn:Hc; simpl; [|discriminate].
    destruct (push_unseen steps cells (stack', seen)) as [stack'' seen'] eqn:Hp.
    apply push_unseen_spec in Hp. destruct Hp as [Hp1 _].
    apply IH; [assumption|].
    intros s m Hin. destruct (Hp1 s m Hin) as [Hold|[-> [Hm _]]];
      [apply Hst'; assumption|].
    split; [lia|]. split; [lia|]. intros _.
    assert (Hstep : step grid p n m) by (exists cells; auto).
    destruct (Z.eq_dec steps 0) as [Hs|Hs].
    + subst steps. rewrite (Hz eq_refl) in Hstep.
      apply corridor_first. assumption.
    + apply corridor_next with (c := n); [apply Hnz; assumption | | assumption].
      apply andb_false_iff in E. destruct E as [E|E].
      * apply negb_false_iff, Z.eqb_eq in E. contradiction.
      * apply cell_in_not_In. assumption.
Qed.

Lemma build_loop_sound (srcs : list cell) :
  forall g g',
    edges_sound grid points p g ->
    for_each srcs
      (fun src graph =>
         walk (walk_fuel grid) grid points p src [(0, src)] [src] graph) g
    = Ok g' ->
    edges_sound grid points p g'.
Proof.
  induction srcs as [|src srcs IH]; intros g g' Hg; cbn [for_each].
  - intros H; inversion H; subst; assumption.
  - destruct (walk (walk_fuel grid) grid points p src [(0, src)] [src] g)
      as [g1|e] eqn:W; cbn [bind]; [|discriminate].
    apply IH.
    apply (walk_sound src (walk_fuel grid) [(0, src)] [src] g g1 Hg);
      [|exact W].
    intros s n [H|[]]. injection H as Hs Hn. subst s n.
    split; [lia|]. split; [reflexivity | congruence].
Qed.

End Corridors.

(** X10: every edge of a graph returned by [build_graph] is backed by the
    grid: as many steps as its weight, each admissible under the part the
    graph was built for, lead from its source to its target without
    passing over another point. *)
Theorem build_graph_sound (grid : Grid) (points : list cell) (p : Z)
    (g : Graph) (a b : cell) (w : Z) :
  build_graph grid points p = Ok g ->
  weight g a b = Ok w ->
  corridor grid points p a b w.
Proof.
  intros H. revert a b w. change (edges_sound grid points p g).
  apply (build_loop_sound grid points p points (empty_graph points) g);
    [|exact H].
  intros a b w Hw. exfalso. unfold weight in Hw.
  destruct (dict_get (empty_graph points) a) as [adj|e] eqn:Ha; simpl in Hw;
    [|discriminate].
  destruct (empty_graph_acc points []) as [_ Hv]; [discriminate|].
  apply Hv in Ha. subst adj. discriminate.
Qed.

Lemma build_graph_sound_witness :
  corridor grid_loop [(0, 2); (3, 0); (1, 2)] 2 (1, 2) (3, 0) 4.
Proof.
  apply (build_graph_sound grid_loop [(0, 2); (3, 0); (1, 2)] 2
           [((0, 2), [((1, 2), 1)]); ((3, 0), [((1, 2), 4)]);
            ((1, 2), [((0, 2), 1); ((3, 0), 4)])]).
  - reflexivity.
  - reflexivity.
Defined.

Lemma push_unseen_covers (steps : Z) (cells : list cell) :
  forall stack seen stack' seen',
    push_unseen steps cells (stack, seen) = (stack', seen') ->
    incl stack stack' /\ incl seen seen' /\ incl cells seen' /\
    (forall x, In x seen' -> In x seen \/ In (steps + 1, x) stack').
Proof.
  unfold push_unseen.
  induction cells as [|c cells IH]; intros stack seen stack' seen'; simpl.
  - intros H; inversion H; subst.
    repeat split; auto using incl_refl. intros x [].
  - destruct (cell_in c seen) eqn:E.
    + apply cell_in_In in E. intros H. apply IH in H.
      destruct H as [H1 [H2 [H3 H4]]]. repeat split; auto.
      intros x [<-|Hx]; [apply H2; assumption | apply H3; assumption].
    + apply cell_in_not_In in E. rewrite set_add_fresh by assumption.
      intros H. apply IH in H. destruct H as [H1 [H2 [H3 H4]]].
      repeat split.
      * intros x Hx. apply H1. right; assumption.
      * intros x Hx. apply H2. right; assumption.
      * intros x [<-|Hx]; [apply H2; left; reflexivity | apply H3; assumption].
      * intros x Hx. destruct (H4 x Hx) as [[<-|Hs]|Hs]; auto.
        right. apply H1. left; reflexivity.
Qed.

Section Completeness.

Variable grid : Grid.
Variable points : list cell.
Variable p : Z.
Variable src : cell.

Lemma settled_mono (seen seen' : list cell) (g g' : Graph) (c : cell) :
  incl seen seen' ->
  (forall a b, has_edge g a b -> has_edge g' a b) ->
  settled grid points p src seen g c ->
  settled grid points p src seen' g' c.
Proof.
  intros Hs Hg [[H1 [H2 H3]]|[H1 [cells [H2 H3]]]].
  - left. auto.
  - right. split; [assumption|]. exists cells. split; [assumption|].
    intros x Hx. apply Hs, H3. assumption.
Qed.

Lemma walk_keeps_edges (fuel : nat) :
  forall stack seen g g',
    walk fuel grid points p src stack seen g = Ok g' ->
    forall a b, has_edge g a b -> has_edge g' a b.
Proof.
  induction fuel as [|fuel IH]; intros stack seen g g';
    destruct stack as [|[steps n] stack']; simpl.
  - intros H; inversion H; subst; auto.
  - discriminate.
  - intros H; inversion H; subst; auto.
  - destruct (negb (steps =? 0) && cell_in n points).
    + destruct (add_edge g src n steps) as [g1|e] eqn:Ha; simpl;
        [|discriminate].
      intros H a b Hab. apply (IH _ _ _ _ H).
      apply (add_edge_has_edge g g1 src n steps Ha). assumption.
    + destruct (nxt_cells grid p n) as [cells|e]; simpl; [|discriminate].
      destruct (push_unseen steps cells (stack', seen)) as [stack'' seen'].
      apply IH.
Qed.

(** when a walk returns, every cell it has seen is settled *)
Lemma walk_settles (fuel : nat) :
  forall stack seen g g',
    stack_ok src stack -> In src seen ->
    (forall c, In c seen ->
       (exists s, In (s, c) stack) \/ settled grid points p src seen g c) ->
    walk fuel grid points p src stack seen g = Ok g' ->
    exists seen',
      In src seen' /\
      forall c, In c seen' -> settled grid points p src seen' g' c.
Proof.
  induction fuel as [|fuel IH]; intros stack seen g g' Hst Hsrc Hinv;
    destruct stack as [|[steps n] stack']; simpl; try discriminate.
  - intros H; inversion H; subst. exists seen. split; [assumption|].
    intros c Hc. destruct (Hinv c Hc) as [[s []]|Hs]; assumption.
  - intros H; inversion H; subst. exists seen. split; [assumption|].
    intros c Hc. destruct (Hinv c Hc) as [[s []]|Hs]; assumption.
  - destruct (Hst steps n (or_introl eq_refl)) as [H0 Hz].
    assert (Hst' : stack_ok src stack')
      by (intros s m Hin; apply (Hst s m); right; assumption).
    destruct (negb (steps =? 0) && cell_in n points) eqn:E.
    + apply andb_true_iff in E. destruct E as [E1 E2].
      apply negb_true_iff, Z.eqb_neq in E1. apply cell_in_In in E2.
      destruct (add_edge g src n steps) as [g1|e] eqn:Ha; simpl;
        [|discriminate].
      destruct (add_edge_has_edge g g1 src n steps Ha) as [Hnew Hkeep].
      apply IH; [assumption | assumption |].
      intros c Hc. destruct (Hinv c Hc) as [[s [Heq|Hin]]|Hs].
      * injection Heq as _ Hn. subst c. right. left.
        split; [|split; assumption]. intros Hn. apply E1. apply Hz. assumption.
      * left. eauto.
      * right. eapply settled_mono; [apply incl_refl | exact Hkeep | exact Hs].
    + destruct (nxt_cells grid p n) as [cells|e] eqn:Hc; simpl;
        [|discriminate].
      destruct (push_unseen steps cells (stack', seen))
        as [stack'' seen'] eqn:Hp.
      pose proof (push_unseen_spec steps cells stack' seen stack'' seen' Hp)
        as [Hspec _].
      apply push_unseen_covers in Hp. destruct Hp as [P1 [P2 [P3 P4]]].
      apply IH.
      * intros s m Hin. destruct (Hspec s m Hin) as [Hold|[-> [_ Hns]]];
          [apply Hst'; assumption|].
        split; [lia|]. split; [lia|]. intros ->. contradiction.
      * apply P2. assumption.
      * intros c Hc'. destruct (P4 c Hc') as [Hold|Hnew]; [|left; eauto].
        destruct (Hinv c Hold) as [[s [Heq|Hin]]|Hs].
        -- injection Heq as _ Hn. subst c. right. right. split.
           ++ apply andb_false_iff in E. destruct E as [E|E].
              ** apply negb_false_iff, Z.eqb_eq in E. left. apply Hz. assumption.
              ** right. apply cell_in_not_In. assumption.
           ++ exists cells. split; assumption.
        -- left. exists s. apply P1. assumption.
        -- right. eapply settled_mono; [exact P2 | | exact Hs]. auto.
Qed.

Lemma settled_reaches (seen : list cell) (g : Graph) :
  In src seen ->
  (forall c, In c seen -> settled grid points p src seen g c) ->
  forall b s, corridor grid points p src b s -> In b seen.
Proof.
  intros Hsrc Hall b s Hcor. induction Hcor as [n Hstep|c n s Hcor IH Hc Hstep].
  - destruct (Hall src Hsrc) as [[Hne _]|[_ [cells [Hn Hincl]]]];
      [congruence|].
    destruct Hstep as [cells' [Hn' Hin]]. rewrite Hn in Hn'.
    inversion Hn'; subst. apply Hincl. assumption.
  - destruct (Hall c IH) as [[_ [Hp _]]|[_ [cells [Hn Hincl]]]];
      [contradiction|].
    destruct Hstep as [cells' [Hn' Hin]]. rewrite Hn in Hn'.
    inversion Hn'; subst. apply Hincl. assumption.
Qed.

(** a walk that returns has recorded an edge to every point a corridor
    leads to *)
Lemma walk_complete (g g' : Graph) :
  walk (walk_fuel grid) grid points p src [(0, src)] [src] g = Ok g' ->
  forall b s, corridor grid points p src b s -> In b points -> b <> src ->
              has_edge g' src b.
Proof.
  intros W b s Hcor Hb Hne.
  destruct (walk_settles (walk_fuel grid) [(0, src)] [src] g g')
    as [seen [Hsrc Hall]]; [| | |exact W|].
  - intros s0 n [H|[]]. injection H as Hs Hn. subst. split; [lia|tauto].
  - left; reflexivity.
  - intros c [<-|[]]. left. exists 0. left; reflexivity.
  - pose proof (settled_reaches seen g' Hsrc Hall b s Hcor) as Hin.
    destruct (Hall b Hin) as [[_ [_ He]]|[[Heq|Hn] _]];
      [assumption | contradiction | contradiction].
Qed.

End Completeness.

Lemma build_loop_complete (grid : Grid) (points : list cell) (p : Z)
    (srcs : list cell) :
  forall g g',
    for_each srcs
      (fun src graph =>
         walk (walk_fuel grid) grid points p src [(0, src)] [src] graph) g
    = Ok g' ->
    (forall a b, has_edge g a b -> has_edge g' a b) /\
    (forall a b s, In a srcs -> corridor grid points p a b s ->
                   In b points -> b <> a -> has_edge g' a b).
Proof.
  induction srcs as [|src srcs IH]; intros g g'; cbn [for_each].
  - intros H; inversion H; subst. split; [auto | intros a b s []].
  - destruct (walk (walk_fuel grid) grid points p src [(0, src)] [src] g)
      as [g1|e] eqn:W; cbn [bind]; [|discriminate].
    intros H. destruct (IH g1 g' H) as [Hkeep Hall]. split.
    + intros a b Hab. apply Hkeep.
      eapply walk_keeps_edges; eassumption.
    + intros a b s [<-|Ha] Hcor Hb Hne.
      * apply Hkeep. eapply walk_complete; eassumption.
      * eapply Hall; eassumption.
Qed.

(** X11: conversely, whenever steps admissible under part [p] lead from a
    point to another point without passing over a third one, the graph
    returned by [build_graph] has an edge between them. *)
Theorem build_graph_complete (grid : Grid) (points : list cell) (p : Z)
    (g : Graph) (a b : cell) (s : Z) :
  build_graph grid points p = Ok g ->
  In a points -> In b points -> b <> a ->
  corridor grid points p a b s ->
  exists w, weight g a b = Ok w.
Proof.
  intros H Ha Hb Hne Hcor.
  destruct (build_loop_complete grid points p points
              (empty_graph points) g H) as [_ Hall].
  exact (Hall a b s Ha Hcor Hb Hne).
Qed.

Lemma build_graph_complete_witness :
  exists w, weight graph_loop (1, 2) (0, 2) = Ok w.
Proof.
  apply (build_graph_complete grid_loop points_loop 2 graph_loop
           (1, 2) (0, 2) 1).
  - reflexivity.
  - simpl; auto.
  - simpl; auto.
  - discriminate.
  - apply corridor_first. exists [(1, 3); (1, 1); (2, 2); (0, 2)].
    split; [reflexivity | simpl; auto].
Defined.

(** * The free-mode graph *)

Lemma corridor_cons (grid : Grid) (points : list cell) (p : Z)
    (n c a : cell) (s : Z) :
  step grid p n c -> ~ In c points ->
  corridor grid points p c a s ->
  corridor grid points p n a (s + 1).
Proof.
  intros Hstep Hc Hcor. induction Hcor as [x Hx|x y s Hcor IH Hx Hy].
  - apply corridor_next with (c := c); [|assumption|assumption].
    apply corridor_first. assumption.
  - apply corridor_next with (c := x); assumption.
Qed.

Lemma corridor_valid (grid : Grid) (points : list cell) (p : Z)
    (a b : cell) (s : Z) :
  corridor grid points p a b s -> is_valid_loc grid b = true.
Proof.
  intros Hcor. destruct Hcor as [n [cells [H Hin]]|c n s _ _ [cells [H Hin]]];
    eapply nxt_cells_valid; eassumption.
Qed.

Section FreeMode.

Variable grid : Grid.
Variable points : list cell.
Hypothesis Hrect : rectangular grid.

Lemma step_free_passable (c n : cell) :
  step grid 2 c n -> passableb grid n = true.
Proof.
  intros [cells [H Hin]]. unfold nxt_cells in H. simpl in H.
  apply (open_neighbors_In grid c cells H) in Hin. tauto.
Qed.

Lemma step_free_back (c n : cell) :
  passableb grid c = true -> step grid 2 c n -> step grid 2 n c.
Proof.
  intros Hc [cells [H Hin]]. unfold step, nxt_cells in *. simpl in *.
  unfold get_nxt_cells_p2 in *.
  destruct (open_neighbors_total grid n step_dirs Hrect) as [cells' H'].
  exists cells'. split; [assumption|].
  apply (open_neighbors_In grid c cells H) in Hin. destruct Hin as [Ha _].
  apply (open_neighbors_In grid n cells' H').
  split; [apply adjacent_sym; assumption | assumption].
Qed.

Lemma corridor_free_passable (a b : cell) (s : Z) :
  corridor grid points 2 a b s -> passableb grid b = true.
Proof.
  intros Hcor. destruct Hcor as [n Hn|c n s _ _ Hn];
    eapply step_free_passable; eassumption.
Qed.

(** in part 2 a corridor can be walked back *)
Lemma corridor_free_reverse (a b : cell) (s : Z) :
  passableb grid a = true ->
  corridor grid points 2 a b s -> corridor grid points 2 b a s.
Proof.
  intros Ha Hcor. induction Hcor as [n Hn|c n s Hcor IH Hc Hn].
  - apply corridor_first. apply step_free_back; assumption.
  - apply corridor_cons with (c := c); [|assumption|assumption].
    apply step_free_back; [|assumption].
    eapply corridor_free_passable; eassumption.
Qed.

End FreeMode.

(** X12: on a rectangular grid with passable points, the graph of part 2
    has an edge from [b] to [a] whenever it has one from [a] to [b]. *)
Theorem free_graph_edges_both_ways (grid : Grid) (points : list cell)
    (g : Graph) (a b : cell) (w : Z) :
  rectangular grid ->
  (forall c, In c points -> passableb grid c = true) ->
  build_graph grid points 2 = Ok g ->
  weight g a b = Ok w ->
  exists w', weight g b a = Ok w'.
Proof.
  intros Hr Hp Hg Hw.
  pose proof (build_graph_inv grid points 2 g Hg) as [Hk He].
  assert (Ha : In a points /\ In b points /\ b <> a).
  { unfold weight in Hw.
    destruct (dict_get g a) as [adj|e] eqn:Hadj; simpl in Hw; [|discriminate].
    split; [apply Hk; eapply dict_get_In_keys; eassumption|].
    apply (He a adj b Hadj). eapply dict_get_In_keys; eassumption. }
  destruct Ha as [Ha [Hb Hne]].
  destruct (build_loop_complete grid points 2 points
              (empty_graph points) g Hg) as [_ Hall].
  apply (Hall b a w Hb); [| assumption | congruence].
  apply corridor_free_reverse; [assumption | apply Hp; assumption |].
  apply (build_loop_sound grid points 2 points (empty_graph points) g);
    [| exact Hg | exact Hw].
  intros x y z Hz. exfalso. unfold weight in Hz.
  destruct (dict_get (empty_graph points) x) as [adj|e] eqn:Hx; simpl in Hz;
    [|discriminate].
  destruct (empty_graph_acc points []) as [_ Hv]; [discriminate|].
  apply Hv in Hx. subst adj. discriminate.
Qed.

Lemma free_graph_edges_both_ways_witness :
  exists w', weight graph_marked_2 (4, 3) (1, 1) = Ok w'.
Proof.
  apply (free_graph_edges_both_ways grid_marked_corridor points_marked
           graph_marked_2 (1, 1) (4, 3) 5).
  - repeat constructor.
  - intros c [<-|[<-|[<-|[<-|[]]]]]; reflexivity.
  - vm_compute. reflexivity.
  - reflexivity.
Defined.

(** * The constrained graph inside the free one *)

Lemma well_markedb_sound (grid : Grid) (c : cell) (ch : ascii) (d : Z * Z) :
  well_markedb grid = true ->
  is_valid_loc grid c = true ->
  grid_at grid c = Ok ch -> forced_dir ch = Some d ->
  is_valid_loc grid (shift c d) = true ->
  passableb grid (shift c d) = true.
Proof.
  unfold well_markedb. rewrite forallb_forall. intros H Hv Hch Hd Hvd.
  apply In_all_cells in Hv. specialize (H c Hv).
  rewrite Hch, Hd, Hvd in H. exact H.
Qed.

Section ConstrainedInFree.

Variable grid : Grid.
Variable points : list cell.
Hypothesis Hrect : rectangular grid.
Hypothesis Hmarks : well_markedb grid = true.

Lemma step_constrained_free (c n : cell) :
  is_valid_loc grid c = true -> step grid 1 c n -> step grid 2 c n.
Proof.
  intros Hv [cells [H Hin]]. unfold step, nxt_cells in *. simpl in *.
  unfold get_nxt_cells_p2.
  destruct (grid_at_valid grid c Hrect Hv) as [ch Hch].
  destruct (get_nxt_cells_p1_cases grid c ch cells Hch H)
    as [[d [Hd [Hdir [Hvd ->]]]]|Hopen].
  - destruct Hin as [<-|[]].
    destruct (open_neighbors_total grid c step_dirs Hrect) as [cells2 H2].
    exists cells2. split; [assumption|].
    apply (open_neighbors_In grid c cells2 H2). split; [exists d; auto|].
    eapply well_markedb_sound; eassumption.
  - exists cells. auto.
Qed.

Lemma corridor_constrained_free (a b : cell) (s : Z) :
  is_valid_loc grid a = true ->
  corridor grid points 1 a b s -> corridor grid points 2 a b s.
Proof.
  intros Ha Hcor. induction Hcor as [n Hn|c n s Hcor IH Hc Hn].
  - apply corridor_first. apply step_constrained_free; assumption.
  - apply corridor_next with (c := c); [assumption | assumption |].
    apply step_constrained_free; [|assumption].
    eapply corridor_valid; eassumption.
Qed.

End ConstrainedInFree.

Lemma empty_graph_sound (grid : Grid) (points : list cell) (p : Z) :
  edges_sound grid points p (empty_graph points).
Proof.
  intros x y z Hz. exfalso. unfold weight in Hz.
  destruct (dict_get (empty_graph points) x) as [adj|e] eqn:Hx; simpl in Hz;
    [|discriminate].
  destruct (empty_graph_acc points []) as [_ Hv]; [discriminate|].
  apply Hv in Hx. subst adj. discriminate.
Qed.

(** X13: on a rectangular grid none of whose marks points at a wall, with
    all points inside the grid, every edge of the graph of part 1 is also
    an edge of the graph of part 2 (its weight there may differ). *)
Theorem constrained_edges_in_free_graph (grid : Grid) (points : list cell)
    (g1 g2 : Graph) (a b : cell) (w : Z) :
  rectangular grid -> well_markedb grid = true ->
  (forall c, In c points -> is_valid_loc grid c = true) ->
  build_graph grid points 1 = Ok g1 ->
  build_graph grid points 2 = Ok g2 ->
  weight g1 a b = Ok w ->
  exists w', weight g2 a b = Ok w'.
Proof.
  intros Hr Hm Hv H1 H2 Hw.
  pose proof (build_graph_inv grid points 1 g1 H1) as [Hk He].
  assert (Ha : In a points /\ In b points /\ b <> a).
  { unfold weight in Hw.
    destruct (dict_get g1 a) as [adj|e] eqn:Hadj; simpl in Hw; [|discriminate].
    split; [apply Hk; eapply dict_get_In_keys; eassumption|].
    apply (He a adj b Hadj). eapply dict_get_In_keys; eassumption. }
  destruct Ha as [Ha [Hb Hne]].
  destruct (build_loop_complete grid points 2 points
              (empty_graph points) g2 H2) as [_ Hall].
  apply (Hall a b w Ha); [| assumption | assumption].
  apply corridor_constrained_free; [assumption | assumption | auto |].
  apply (build_loop_sound grid points 1 points (empty_graph points) g1);
    [apply empty_graph_sound | exact H1 | exact Hw].
Qed.

Lemma constrained_edges_in_free_graph_witness :
  exists w', weight graph_marked_2 (1, 1) (4, 3) = Ok w'.
Proof.
  apply (constrained_edges_in_free_graph grid_marked_corridor points_marked
           graph_marked_1 graph_marked_2 (1, 1) (4, 3) 9).
  - repeat constructor.
  - vm_compute. reflexivity.
  - intros c [<-|[<-|[<-|[<-|[]]]]]; reflexivity.
  - vm_compute. reflexivity.
  - vm_compute. reflexivity.
  - reflexivity.
Defined.

(** * Further properties of the search *)

Lemma dict_get_absent {V : Type} (d : dict V) (k : cell) :
  ~ In k (keys d) -> dict_get d k = Raise KeyError.
Proof.
  induction d as [|[k' v'] d IH]; simpl; [reflexivity|].
  intros H. destruct (cell_eqb k k') eqn:E.
  - apply cell_eqb_eq in E. subst. tauto.
  - apply IH. tauto.
Qed.

Lemma get_max_steps_at_finish (graph : Graph) (finish : cell) :
  get_max_steps graph finish finish = Ok (Fin 0).
Proof.
  unfold get_max_steps, dfs_fuel. cbn [dfs]. rewrite cell_eqb_refl.
  reflexivity.
Qed.

Lemma get_max_steps_absent (graph : Graph) (start finish : cell) :
  start <> finish -> ~ In start (keys graph) ->
  get_max_steps graph start finish = Raise KeyError.
Proof.
  intros Hne Hk. unfold get_max_steps, dfs_fuel. cbn [dfs].
  apply cell_eqb_neq in Hne. rewrite Hne.
  rewrite dict_get_absent by assumption. reflexivity.
Qed.

(** X15: a search from a start that differs from the finish and is no key
    of the graph raises [KeyError]. *)
Theorem get_max_steps_missing_key (graph : Graph) (start finish : cell) :
  start <> finish -> ~ In start (keys graph) ->
  get_max_steps graph start finish = Raise KeyError.
Proof. apply get_max_steps_absent. Qed.

Lemma get_max_steps_missing_key_witness :
  get_max_steps graph_one_edge (5, 5) (1, 1) = Raise KeyError.
Proof.
  apply (get_max_steps_missing_key graph_one_edge (5, 5) (1, 1)).
  - discriminate.
  - simpl. intros [H|[H|[]]]; discriminate.
Defined.

Lemma path_weight_nonneg (graph : Graph) (bound : Z) (p : list cell) (m : Z) :
  weights_bounded bound graph -> path_weight graph p = Ok m -> 0 <= m.
Proof.
  intros Hb. revert m. induction p as [|a p IH]; intros m.
  - simpl. intros H; inversion H; lia.
  - destruct p as [|b p].
    + simpl. intros H; inversion H; lia.
    + change (path_weight graph (a :: b :: p))
        with (w0 <- weight graph a b ;;
              m0 <- path_weight graph (b :: p) ;; Ok (w0 + m0)).
      destruct (weight graph a b) as [w|e] eqn:Hw; cbn [bind]; [|discriminate].
      destruct (path_weight graph (b :: p)) as [m'|e] eqn:Hm; cbn [bind];
        [|discriminate].
      intros H; inversion H; subst. apply Hb in Hw.
      specialize (IH m' eq_refl). lia.
Qed.

Lemma weights_rangeb_sound (bound : Z) (g : Graph) :
  weights_rangeb bound g = true -> weights_bounded bound g.
Proof.
  unfold weights_rangeb. rewrite forallb_forall.
  intros H a b w. unfold weight.
  destruct (dict_get g a) as [adj|e] eqn:Ha; simpl; [|discriminate].
  intros Hw. apply dict_get_In in Ha, Hw.
  specialize (H _ Ha). simpl in H. rewrite forallb_forall in H.
  specialize (H _ Hw). simpl in H.
  apply andb_true_iff in H. destruct H as [H1 H2].
  apply Z.leb_le in H1, H2. lia.
Qed.

(** X14: on a graph over its node set whose weights lie between 1 and a
    bound within float range, the search returns the integer 0 exactly
    when start and finish are the same node. *)
Theorem get_max_steps_zero (graph : Graph) (bound : Z) (start finish : cell) :
  graph_closed graph -> weights_bounded bound graph ->
  bound < 2 ^ 1024 - 2 ^ 970 ->
  (get_max_steps graph start finish = Ok (Fin 0) <-> start = finish).
Proof.
  intros Hc Hb Hlt. split.
  - intros H. destruct (cell_eq_dec start finish) as [E|E]; [assumption|].
    exfalso.
    destruct (in_dec cell_eq_dec start (keys graph)) as [Hk|Hk].
    + destruct (get_max_steps_best graph finish Hc
                  (weights_bounded_ok bound graph Hb Hlt) start
                  (or_intror Hk)) as [r [Hr Hbest]].
      rewrite Hr in H. inversion H; subst r. simpl in Hbest.
      destruct Hbest as [[p [Hp _]] _].
      destruct (simple_path_step graph finish start p 0 E Hp)
        as [b [p' [w [m' [_ [_ [Hw [[_ [_ [_ Hp']]] [Hm _]]]]]]]]].
      apply Hb in Hw. apply (path_weight_nonneg graph bound) in Hp';
        [lia | assumption].
    + rewrite get_max_steps_absent in H by assumption. discriminate.
  - intros ->. apply get_max_steps_at_finish.
Qed.

Lemma get_max_steps_zero_witness :
  get_max_steps graph_diamond (0, 0) (0, 0) = Ok (Fin 0) <-> (0, 0) = (0, 0).
Proof.
  apply (get_max_steps_zero graph_diamond 5 (0, 0) (0, 0)).
  - apply graph_closedb_sound. reflexivity.
  - apply weights_rangeb_sound. reflexivity.
  - reflexivity.
Defined.

Lemma best_unique (graph : Graph) (finish : cell) (vis : list cell)
    (c : cell) (r1 r2 : steps) :
  best graph finish vis c r1 -> best graph finish vis c r2 -> r1 = r2.
Proof.
  destruct r1 as [|m1], r2 as [|m2]; simpl; intros H1 H2.
  - reflexivity.
  - destruct H2 as [[p [Hp Ha]] _]. exfalso. exact (H1 p m2 Hp Ha).
  - destruct H1 as [[p [Hp Ha]] _]. exfalso. exact (H2 p m1 Hp Ha).
  - destruct H1 as [[p1 [Hp1 Ha1]] Hmax1], H2 as [[p2 [Hp2 Ha2]] Hmax2].
    specialize (Hmax1 p2 m2 Hp2 Ha2). specialize (Hmax2 p1 m1 Hp1 Ha1).
    f_equal. lia.
Qed.

Lemma path_weight_same (g1 g2 : Graph) (p : list cell) :
  (forall a b, weight g1 a b = weight g2 a b) ->
  path_weight g1 p = path_weight g2 p.
Proof.
  intros Hw. induction p as [|a p IH]; [reflexivity|].
  destruct p as [|b p]; [reflexivity|].
  change (path_weight g1 (a :: b :: p))
    with (w0 <- weight g1 a b ;; m0 <- path_weight g1 (b :: p) ;; Ok (w0 + m0)).
  change (path_weight g2 (a :: b :: p))
    with (w0 <- weight g2 a b ;; m0 <- path_weight g2 (b :: p) ;; Ok (w0 + m0)).
  rewrite Hw, IH. reflexivity.
Qed.

Lemma best_same (g1 g2 : Graph) (finish : cell) (vis : list cell) (c : cell)
    (r : steps) :
  (forall a b, weight g1 a b = weight g2 a b) ->
  best g1 finish vis c r -> best g2 finish vis c r.
Proof.
  intros Hw.
  assert (Hsp : forall s p m, simple_path g2 s finish p m <->
                              simple_path g1 s finish p m).
  { intros s p m. unfold simple_path.
    rewrite (path_weight_same g1 g2 p Hw). tauto. }
  destruct r as [|m]; simpl.
  - intros H p m Hp. apply (H p m). apply Hsp. assumption.
  - intros [[p [Hp Ha]] Hmax]. split.
    + exists p. split; [apply Hsp; assumption | assumption].
    + intros q m' Hq. apply Hmax. apply Hsp. assumption.
Qed.

Lemma same_edges_closed (g1 g2 : Graph) :
  same_edges g1 g2 -> graph_closed g1 -> graph_closed g2.
Proof.
  intros [Hk Hw] Hc a adj b Ha Hb.
  destruct (In_keys_dict_get adj b Hb) as [w Hwb].
  assert (H2 : weight g2 a b = Ok w) by (unfold weight; rewrite Ha; exact Hwb).
  rewrite <- Hw in H2. unfold weight in H2.
  destruct (dict_get g1 a) as [adj1|e] eqn:Ha1; simpl in H2; [|discriminate].
  apply Hk. apply (Hc a adj1 b Ha1). eapply dict_get_In_keys; eassumption.
Qed.

Lemma same_edges_weights_ok (g1 g2 : Graph) :
  same_edges g1 g2 -> weights_ok g1 -> weights_ok g2.
Proof.
  intros [_ Hw] Ho a b w H. rewrite <- Hw in H. exact (Ho a b w H).
Qed.

Lemma weight_eqb_eq (r1 r2 : result Z) : weight_eqb r1 r2 = true -> r1 = r2.
Proof.
  destruct r1 as [w1|e1], r2 as [w2|e2]; simpl; try discriminate.
  - intros H. apply Z.eqb_eq in H. congruence.
  - destruct e1, e2; simpl; try discriminate; reflexivity.
Qed.

Lemma weight_no_target (g : Graph) (a b : cell) :
  ~ In b (edge_targets g) -> weight g a b = Raise KeyError.
Proof.
  intros Hb. unfold weight.
  destruct (dict_get g a) as [adj|e] eqn:Ha; simpl.
  - apply dict_get_absent. intros Hin. apply Hb.
    unfold edge_targets. apply in_flat_map.
    exists (a, adj). split; [apply dict_get_In; assumption | assumption].
  - apply dict_get_raises in Ha. subst. reflexivity.
Qed.

Lemma same_edgesb_sound (g1 g2 : Graph) :
  same_edgesb g1 g2 = true -> same_edges g1 g2.
Proof.
  unfold same_edgesb. rewrite !andb_true_iff, !forallb_forall.
  intros [[H12 H21] Hw].
  assert (Hk : forall c, In c (keys g1) <-> In c (keys g2)).
  { intros c. split; intros H.
    - apply cell_in_In. apply H12. assumption.
    - apply cell_in_In. apply H21. assumption. }
  split; [assumption|]. intros a b.
  destruct (in_dec cell_eq_dec b (edge_targets g1 ++ edge_targets g2))
    as [Hb|Hb].
  - destruct (in_dec cell_eq_dec a (keys g1)) as [Ha|Ha].
    + specialize (Hw a Ha). rewrite forallb_forall in Hw.
      apply weight_eqb_eq. apply Hw. assumption.
    + unfold weight. rewrite !dict_get_absent; [reflexivity | | assumption].
      intros H. apply Ha. apply Hk. assumption.
  - rewrite !weight_no_target; [reflexivity | |];
      intros H; apply Hb; apply in_or_app; auto.
Qed.

(** X16: the result of the search does not depend on the order in which
    the graph lists its nodes and their neighbours: two graphs over their
    node sets with the same keys and the same weighted edges give the same
    result. *)
Theorem get_max_steps_order_independent (g1 g2 : Graph)
    (start finish : cell) :
  graph_closed g1 -> weights_ok g1 -> same_edges g1 g2 ->
  get_max_steps g1 start finish = get_max_steps g2 start finish.
Proof.
  intros Hc Ho Hs.
  pose proof (same_edges_closed g1 g2 Hs Hc) as Hc2.
  pose proof (same_edges_weights_ok g1 g2 Hs Ho) as Ho2.
  destruct (cell_eq_dec start finish) as [E|E].
  - subst. rewrite !get_max_steps_at_finish. reflexivity.
  - destruct (in_dec cell_eq_dec start (keys g1)) as [Hk|Hk].
    + destruct (get_max_steps_best g1 finish Hc Ho start (or_intror Hk))
        as [r1 [-> Hb1]].
      destruct (get_max_steps_best g2 finish Hc2 Ho2 start)
        as [r2 [-> Hb2]]; [right; apply Hs; assumption|].
      f_equal. apply (best_unique g2 finish [] start); [|assumption].
      apply (best_same g1 g2); [apply Hs | assumption].
    + rewrite !get_max_steps_absent; auto.
      intros H. apply Hk. apply Hs. assumption.
Qed.

Lemma get_max_steps_order_independent_witness :
  get_max_steps graph_diamond (0, 0) (3, 3)
  = get_max_steps graph_diamond_reordered (0, 0) (3, 3).
Proof.
  apply (get_max_steps_order_independent graph_diamond
           graph_diamond_reordered (0, 0) (3, 3)).
  - apply graph_closedb_sound. reflexivity.
  - apply weights_okb_sound. reflexivity.
  - apply same_edgesb_sound. reflexivity.
Defined.

Lemma path_weight_le (g1 g2 : Graph) (p : list cell) (m1 : Z) :
  (forall a b w, weight g1 a b = Ok w ->
                 exists w', weight g2 a b = Ok w' /\ w <= w') ->
  path_weight g1 p = Ok m1 ->
  exists m2, path_weight g2 p = Ok m2 /\ m1 <= m2.
Proof.
  intros Hw. revert m1. induction p as [|a p IH]; intros m1.
  - simpl. intros H; inversion H. exists 0. split; [reflexivity | lia].
  - destruct p as [|b p].
    + simpl. intros H; inversion H. exists 0. split; [reflexivity | lia].
    + change (path_weight g1 (a :: b :: p))
        with (w0 <- weight g1 a b ;;
              m0 <- path_weight g1 (b :: p) ;; Ok (w0 + m0)).
      change (path_weight g2 (a :: b :: p))
        with (w0 <- weight g2 a b ;;
              m0 <- path_weight g2 (b :: p) ;; Ok (w0 + m0)).
      destruct (weight g1 a b) as [w|e] eqn:Hab; cbn [bind]; [|discriminate].
      destruct (path_weight g1 (b :: p)) as [m|e] eqn:Hm; cbn [bind];
        [|discriminate].
      intros H; inversion H; subst m1.
      destruct (Hw a b w Hab) as [w' [-> Hle]].
      destruct (IH m eq_refl) as [m' [-> Hle']]. cbn [bind].
      exists (w' + m'). split; [reflexivity | lia].
Qed.

(** X19: the search is monotone in the graph: if every edge of [g1] is an
    edge of [g2] of at least the same weight and the search over [g1]
    returns an integer, then the search over [g2] returns an integer at
    least as large. *)
Theorem get_max_steps_monotone (g1 g2 : Graph) (start finish : cell)
    (m1 : Z) :
  graph_closed g1 -> weights_ok g1 ->
  graph_closed g2 -> weights_ok g2 ->
  (forall a b w, weight g1 a b = Ok w ->
                 exists w', weight g2 a b = Ok w' /\ w <= w') ->
  get_max_steps g1 start finish = Ok (Fin m1) ->
  exists m2, get_max_steps g2 start finish = Ok (Fin m2) /\ m1 <= m2.
Proof.
  intros Hc1 Ho1 Hc2 Ho2 Hsub H1.
  assert (Hk1 : start = finish \/ In start (keys g1)).
  { destruct (cell_eq_dec start finish) as [E|E]; [auto|].
    destruct (in_dec cell_eq_dec start (keys g1)) as [Hk|Hk]; [auto|].
    rewrite get_max_steps_absent in H1 by assumption. discriminate. }
  destruct (get_max_steps_best g1 finish Hc1 Ho1 start Hk1) as [r1 [Hr1 Hb1]].
  rewrite Hr1 in H1. inversion H1; subst r1. simpl in Hb1.
  destruct Hb1 as [[p [[Hh [Hl [Hn Hp]]] _]] _].
  destruct (path_weight_le g1 g2 p m1 Hsub Hp) as [m [Hm Hle]].
  assert (Hp2 : simple_path g2 start finish p m)
    by (unfold simple_path; auto).
  destruct (get_max_steps_best g2 finish Hc2 Ho2 start
              (simple_path_start_key _ _ _ _ _ Hp2)) as [r2 [Hr2 Hb2]].
  destruct r2 as [|m2]; simpl in Hb2.
  - exfalso. exact (Hb2 p m Hp2 (avoiding_nil p)).
  - exists m2. split; [assumption|]. destruct Hb2 as [_ Hmax].
    specialize (Hmax p m Hp2 (avoiding_nil p)). lia.
Qed.

Lemma weight_leb_sound (g1 g2 : Graph) :
  forallb
    (fun a =>
       forallb
         (fun b =>
            match weight g1 a b, weight g2 a b with
            | Ok w, Ok w' => w <=? w'
            | Ok _, Raise _ => false
            | Raise _, _ => true
            end)
         (edge_targets g1))
    (keys g1) = true ->
  forall a b w, weight g1 a b = Ok w ->
                exists w', weight g2 a b = Ok w' /\ w <= w'.
Proof.
  rewrite forallb_forall. intros H a b w Hw.
  assert (Ha : In a (keys g1)).
  { unfold weight in Hw. destruct (dict_get g1 a) as [adj|e] eqn:E;
      simpl in Hw; [|discriminate].
    eapply dict_get_In_keys; eassumption. }
  assert (Hb : In b (edge_targets g1)).
  { destruct (in_dec cell_eq_dec b (edge_targets g1)) as [Hb|Hb]; [assumption|].
    rewrite weight_no_target in Hw by assumption. discriminate. }
  specialize (H a Ha). rewrite forallb_forall in H. specialize (H b Hb).
  rewrite Hw in H. destruct (weight g2 a b) as [w'|e]; [|discriminate].
  exists w'. split; [reflexivity | apply Z.leb_le; assumption].
Qed.

Lemma get_max_steps_monotone_witness :
  exists m2, get_max_steps graph_diamond (0, 0) (3, 3) = Ok (Fin m2) /\ 3 <= m2.
Proof.
  apply (get_max_steps_monotone graph_diamond_sparse graph_diamond
           (0, 0) (3, 3) 3).
  - apply graph_closedb_sound. reflexivity.
  - apply weights_okb_sound. reflexivity.
  - apply graph_closedb_sound. reflexivity.
  - apply weights_okb_sound. reflexivity.
  - apply weight_leb_sound. vm_compute. reflexivity.
  - vm_compute. reflexivity.
Defined.

(** * Weights, totality and the visited set *)

(** X7: every weight in a graph returned by [build_graph] is a step count
    of at least 1 and at most the number of cells of the grid. *)
Theorem build_graph_weight_range (grid : Grid) (points : list cell) (p : Z)
    (g : Graph) (a b : cell) (w : Z) :
  build_graph grid points p = Ok g ->
  weight g a b = Ok w ->
  1 <= w <= len grid * width grid.
Proof.
  intros H Hw. exact (build_graph_weights grid points p g H a b w Hw).
Qed.

Lemma build_graph_weight_range_witness :
  1 <= 4 <= len grid_loop * width grid_loop.
Proof.
  apply (build_graph_weight_range grid_loop points_loop 2 graph_loop
           (1, 2) (3, 0) 4).
  - reflexivity.
  - reflexivity.
Defined.

(** X8: on a rectangular grid, with every point inside the grid,
    [build_graph] raises nothing and returns a graph, in either part. *)
Theorem build_graph_returns (grid : Grid) (points : list cell) (p : Z) :
  rectangular grid ->
  (forall c, In c points -> is_valid_loc grid c = true) ->
  exists g, build_graph grid points p = Ok g.
Proof. apply build_graph_total. Qed.

Lemma build_graph_returns_witness :
  exists g, build_graph grid_loop points_loop 1 = Ok g.
Proof.
  apply (build_graph_returns grid_loop points_loop 1).
  - repeat constructor.
  - intros c [<-|[<-|[<-|[]]]]; reflexivity.
Defined.

(** X17: on a rectangular grid with at least one line and one column (and
    fewer than [2**1024 - 2**970] cells, so that weights fit a float)
    [driver] raises nothing: it computes both results. *)
Theorem driver_returns (lines : Grid) :
  rectangular lines -> lines <> [] -> 0 < width lines ->
  len lines * width lines < 2 ^ 1024 - 2 ^ 970 ->
  exists p1 p2, driver lines = Ok (p1, p2).
Proof. apply driver_total. Qed.

Lemma driver_returns_witness :
  exists p1 p2, driver grid_marked_corridor = Ok (p1, p2).
Proof.
  apply (driver_returns grid_marked_corridor).
  - repeat constructor.
  - discriminate.
  - reflexivity.
  - reflexivity.
Defined.

(** X18: a call of [dfs] on a node outside the visited set that returns
    hands the set back as it received it, on any graph: what a branch
    adds to the set it removes before the next branch is tried. *)
Theorem dfs_visited_discipline (fuel : nat) (graph : Graph)
    (curr finish : cell) (visited visited' : list cell) (r : steps) :
  ~ In curr visited ->
  dfs fuel graph curr finish visited = Ok (r, visited') ->
  visited' = visited.
Proof. apply dfs_restores. Qed.

Lemma dfs_visited_discipline_witness : [(9, 9)] = [(9, 9)].
Proof.
  apply (dfs_visited_discipline 5 graph_diamond (0, 0) (3, 3)
           [(9, 9)] [(9, 9)] (Fin 6)).
  - simpl. intros [H|[]]; discriminate.
  - reflexivity.
Defined.

(** * Steps stay inside the grid; grids without marks *)

(** X20: neither step function ever returns a cell outside the grid or a
    cell that is not an orthogonal neighbour of the given one. *)
Theorem next_cells_in_bounds (grid : Grid) (c : cell) (cells : list cell) :
  get_nxt_cells_p1 grid c = Ok cells \/ get_nxt_cells_p2 grid c = Ok cells ->
  forall n, In n cells -> is_valid_loc grid n = true /\ adjacent c n.
Proof.
  assert (Hopen : open_neighbors grid c step_dirs = Ok cells ->
            forall n, In n cells -> is_valid_loc grid n = true /\ adjacent c n).
  { intros H n Hn. apply (open_neighbors_In grid c cells H) in Hn.
    split; [apply passableb_valid; tauto | tauto]. }
  intros [H|H]; [|exact (Hopen H)].
  destruct (grid_at grid c) as [ch|e] eqn:Hch.
  - destruct (get_nxt_cells_p1_cases grid c ch cells Hch H)
      as [[d [_ [Hd [Hv ->]]]]|Ho]; [|exact (Hopen Ho)].
    intros n [<-|[]]. split; [assumption | exists d; auto].
  - unfold get_nxt_cells_p1 in H. rewrite Hch in H. discriminate.
Qed.

Lemma next_cells_in_bounds_witness :
  is_valid_loc [".>."]%string (0, 2) = true /\ adjacent (0, 1) (0, 2).
Proof.
  apply (next_cells_in_bounds [".>."]%string (0, 1) [(0, 2)]).
  - left. reflexivity.
  - left. reflexivity.
Defined.

Lemma unmarkedb_sound (grid : Grid) (c : cell) (ch : ascii) :
  unmarkedb grid = true -> is_valid_loc grid c = true ->
  grid_at grid c = Ok ch -> forced_dir ch = None.
Proof.
  unfold unmarkedb. rewrite forallb_forall. intros H Hv Hch.
  apply In_all_cells in Hv. specialize (H c Hv). rewrite Hch in H.
  destruct (forced_dir ch); [discriminate | reflexivity].
Qed.

Lemma forced_dir_none (ch : ascii) :
  forced_dir ch = None ->
  is_char ch ">" = false /\ is_char ch "<" = false /\
  is_char ch "^" = false /\ is_char ch "v" = false.
Proof.
  unfold forced_dir.
  destruct (is_char ch ">"); [discriminate|].
  destruct (is_char ch "<"); [discriminate|].
  destruct (is_char ch "^"); [discriminate|].
  destruct (is_char ch "v"); [discriminate|]. auto.
Qed.

Section Unmarked.

Variable grid : Grid.
Variable points : list cell.
Hypothesis Hrect : rectangular grid.
Hypothesis Hplain : unmarkedb grid = true.

Lemma nxt_cells_unmarked (c : cell) :
  is_valid_loc grid c = true -> nxt_cells grid 1 c = nxt_cells grid 2 c.
Proof.
  intros Hv. unfold nxt_cells. simpl.
  unfold get_nxt_cells_p1, get_nxt_cells_p2.
  destruct (grid_at_valid grid c Hrect Hv) as [ch Hch]. rewrite Hch. simpl.
  destruct (forced_dir_none ch (unmarkedb_sound grid c ch Hplain Hv Hch))
    as [-> [-> [-> ->]]].
  reflexivity.
Qed.

Lemma walk_unmarked (src : cell) (fuel : nat) :
  forall stack seen g,
    (forall s n, In (s, n) stack -> is_valid_loc grid n = true) ->
    walk fuel grid points 1 src stack seen g
    = walk fuel grid points 2 src stack seen g.
Proof.
  induction fuel as [|fuel IH]; intros stack seen g Hv;
    destruct stack as [|[steps n] stack']; simpl; try reflexivity.
  assert (Hv' : forall s m, In (s, m) stack' -> is_valid_loc grid m = true)
    by (intros s m Hin; apply (Hv s m); right; assumption).
  destruct (negb (steps =? 0) && cell_in n points).
  - destruct (add_edge g src n steps) as [g1|e]; simpl; [|reflexivity].
    apply IH. assumption.
  - rewrite (nxt_cells_unmarked n) by (apply (Hv steps n); left; reflexivity).
    destruct (nxt_cells grid 2 n) as [cells|e] eqn:Hc; simpl; [|reflexivity].
    destruct (push_unseen steps cells (stack', seen))
      as [stack'' seen'] eqn:Hp.
    apply IH.
    apply (push_unseen_measure grid steps cells
             (nxt_cells_valid grid 2 n cells Hc)) in Hp.
    destruct Hp as [_ Hin]. intros s m Hsm.
    destruct (Hin s m Hsm) as [H|H]; [eapply Hv'; eassumption | assumption].
Qed.

Lemma build_loop_unmarked (srcs : list cell) :
  (forall c, In c srcs -> is_valid_loc grid c = true) ->
  forall g,
    for_each srcs
      (fun src graph =>
         walk (walk_fuel grid) grid points 1 src [(0, src)] [src] graph) g
    = for_each srcs
        (fun src graph =>
           walk (walk_fuel grid) grid points 2 src [(0, src)] [src] graph) g.
Proof.
  induction srcs as [|src srcs IH]; intros Hv g; cbn [for_each];
    [reflexivity|].
  rewrite (walk_unmarked src (walk_fuel grid) [(0, src)] [src] g).
  - destruct (walk (walk_fuel grid) grid points 2 src [(0, src)] [src] g);
      cbn [bind]; [|reflexivity].
    apply IH. intros c Hc. apply Hv. right; assumption.
  - intros s n [H|[]]. injection H as _ Hn. subst n.
    apply Hv. left; reflexivity.
Qed.

End Unmarked.

(** X21: on a rectangular grid without marked cells, with every point
    inside the grid, [build_graph] returns the same graph in part 1 and
    in part 2. *)
Theorem build_graph_unmarked (grid : Grid) (points : list cell) :
  rectangular grid -> unmarkedb grid = true ->
  (forall c, In c points -> is_valid_loc grid c = true) ->
  build_graph grid points 1 = build_graph grid points 2.
Proof.
  intros Hr Hu Hv. unfold build_graph.
  apply build_loop_unmarked; assumption.
Qed.

Lemma build_graph_unmarked_witness :
  build_graph grid_loop points_loop 1 = build_graph grid_loop points_loop 2.
Proof.
  apply (build_graph_unmarked grid_loop points_loop).
  - repeat constructor.
  - vm_compute. reflexivity.
  - intros c [<-|[<-|[<-|[]]]]; reflexivity.
Defined.

Lemma pipeline_points_valid (lines : Grid) (start finish : cell)
    (pts : list cell) :
  rectangular lines -> lines <> [] -> 0 < width lines ->
  get_start_finish lines = Ok (start, finish) ->
  get_option_points lines start finish = Ok pts ->
  forall c, In c pts -> is_valid_loc lines c = true.
Proof.
  intros Hr Hne Hw Hsf Hpts.
  destruct (get_start_finish_endpoints lines Hne) as [sy [fy [E [Hsy Hfy]]]].
  rewrite E in Hsf. inversion Hsf; subst start finish. clear Hsf.
  assert (Hlen : 0 < len lines).
  { destruct lines; [congruence|]. rewrite len_cons.
    pose proof (len_nonneg lines). lia. }
  assert (Hstart : is_valid_loc lines (0, sy) = true).
  { apply endpoint_col_lt in Hsy.
    - unfold is_valid_loc. cbn [fst snd].
      destruct lines as [|row rest]; [congruence|]. simpl hd in Hsy.
      change (width (row :: rest)) with (len (row_chars row)).
      rewrite !andb_true_iff, !Z.leb_le, !Z.ltb_lt. lia.
    - destruct lines as [|row rest]; [congruence|]. exact Hw. }
  assert (Hfinish : is_valid_loc lines (len lines - 1, fy) = true).
  { pose proof (rectangular_last lines Hr Hne) as Hl.
    apply endpoint_col_lt in Hfy; [|lia].
    unfold is_valid_loc. cbn [fst snd].
    rewrite !andb_true_iff, !Z.leb_le, !Z.ltb_lt. lia. }
  destruct (get_option_points_In lines (0, sy) (len lines - 1, fy) Hr)
    as [pts' [E' Hin]].
  rewrite E' in Hpts. inversion Hpts; subst pts'.
  intros c Hc. apply Hin in Hc.
  destruct Hc as [->|[->|[Hp _]]]; auto using passableb_valid.
Qed.

(** X22: on a rectangular grid without marked cells, with at least one
    line and one column, the two results [driver] computes are equal. *)
Theorem driver_unmarked (lines : Grid) (p1 p2 : steps) :
  rectangular lines -> lines <> [] -> 0 < width lines ->
  unmarkedb lines = true ->
  driver lines = Ok (p1, p2) ->
  p1 = p2.
Proof.
  intros Hr Hne Hw Hu. unfold driver.
  destruct (get_start_finish lines) as [[start finish]|e] eqn:Hsf;
    cbn [bind]; [|discriminate].
  destruct (get_option_points lines start finish) as [pts|e] eqn:Hpts;
    cbn [bind]; [|discriminate].
  rewrite (build_loop_unmarked lines pts Hr Hu pts
             (pipeline_points_valid lines start finish pts Hr Hne Hw Hsf Hpts)
             (empty_graph pts)
           : build_graph lines pts 1 = build_graph lines pts 2).
  destruct (build_graph lines pts 2) as [g|e]; cbn [bind]; [|discriminate].
  destruct (get_max_steps g start finish) as [r|e]; cbn [bind];
    [|discriminate].
  intros H; inversion H; reflexivity.
Qed.

Lemma driver_unmarked_witness : Fin 5 = Fin 5.
Proof.
  apply (driver_unmarked grid_loop (Fin 5) (Fin 5)).
  - repeat constructor.
  - discriminate.
  - reflexivity.
  - vm_compute. reflexivity.
  - vm_compute. reflexivity.
Defined.
